(** * do-snapshot: the retention engine, the scheduler and the simulation

    A shallow embedding of [do-snapshot.py] and the properties its
    specification states about it.

    Conventions of the embedding.
    - A [timedelta] is its total number of seconds (every duration the
      program builds is a whole number of hours); the constructor's range
      check is kept.
    - A [datetime] is a number of seconds since 1970-01-01T00:00:00, within
      the range of years 1..9999; arithmetic that leaves the range raises
      [OverflowError] as in Python.
    - The [created_at] text of a snapshot, always of the fixed-width form
      [YYYY-MM-DDTHH:MM:SSZ], is identified with the instant it denotes:
      on that form the order of the texts is the order of the instants and
      [strptime] of the first 19 characters gives the instant back.
    - Python exceptions are values of [exn]; a function that can raise
      returns a [result].
    - Strings are ASCII. *)

From Stdlib Require Import ZArith List String Ascii Bool Lia.
From Stdlib Require Import Sorted Permutation.
Import ListNotations.
Local Open Scope string_scope.
Local Open Scope list_scope.
Local Open Scope Z_scope.

Set Implicit Arguments.

(* ================================================================== *)
(** * Exceptions and results *)

(** The four messages with which the program raises [ValueError]. *)
Inductive message : Type :=
| UnsupportedSuffix (c : ascii)   (* 'unsupported interval suffix {}' *)
| NotANumber                      (* 'interval must be a number' *)
| KeepForm                        (* 'keep argument must be in the form INTERVAL:AGE' *)
| SimulateForm.                   (* 'simulate argument must be in the form INTERVAL:DURATION' *)

Inductive exn : Type :=
| ValueError (m : message)
| IndexError
| KeyError
| OverflowError.

Inductive result (A : Type) : Type :=
| Ok (a : A)
| Raise (e : exn).

Arguments Ok {A} a.
Arguments Raise {A} e.

Definition bind {A B : Type} (r : result A) (k : A -> result B) : result B :=
  match r with
  | Ok a => k a
  | Raise e => Raise e
  end.

Notation "x <- r ;; k" := (bind r (fun x => k))
  (at level 61, r at next level, right associativity).
Notation "' p <- r ;; k" := (bind r (fun x => let p := x in k))
  (at level 61, p pattern, r at next level, right associativity).

(** The specification's names for the configuration errors. *)
Definition InvalidDurationError (e : exn) : Prop :=
  e = ValueError NotANumber \/ exists c, e = ValueError (UnsupportedSuffix c).

Definition InvalidPolicyError (e : exn) : Prop :=
  e = ValueError KeepForm.

(* ================================================================== *)
(** * Python's string and integer primitives *)

(** [s[-1]]: the last character, [IndexError] on the empty string. *)
Fixpoint last_char (s : string) : option ascii :=
  match s with
  | EmptyString => None
  | String c EmptyString => Some c
  | String _ r => last_char r
  end.

(** [s[:-1]]: everything but the last character. *)
Fixpoint but_last (s : string) : string :=
  match s with
  | EmptyString => EmptyString
  | String _ EmptyString => EmptyString
  | String c r => String c (but_last r)
  end.

(** [s.split(sep)] for a one-character separator. *)
Fixpoint str_split (sep : ascii) (s : string) : list string :=
  match s with
  | EmptyString => [EmptyString]
  | String c r =>
      if Ascii.eqb c sep then EmptyString :: str_split sep r
      else match str_split sep r with
           | [] => [String c EmptyString]
           | h :: t => String c h :: t
           end
  end.

(** Number of occurrences of a character. *)
Fixpoint count_char (sep : ascii) (s : string) : nat :=
  match s with
  | EmptyString => O
  | String c r => ((if Ascii.eqb c sep then 1 else 0) + count_char sep r)%nat
  end.

(** The blanks that [int] passes over at both ends of an ASCII string:
    the space and the characters 9 to 13. *)
Definition is_space (c : ascii) : bool :=
  let n := nat_of_ascii c in
  (Nat.eqb n 32 || (Nat.leb 9 n && Nat.leb n 13))%bool.

Definition is_digit (c : ascii) : bool :=
  let n := nat_of_ascii c in (Nat.leb 48 n && Nat.leb n 57)%bool.

Definition digit_value (c : ascii) : Z := Z.of_nat (nat_of_ascii c) - 48.

Fixpoint lstrip (l : list ascii) : list ascii :=
  match l with
  | c :: r => if is_space c then lstrip r else l
  | [] => []
  end.

Definition strip (l : list ascii) : list ascii :=
  rev (lstrip (rev (lstrip l))).

(** The digits of an integer literal: decimal digits, single underscores
    allowed between two digits. [prev] tells whether the previous
    character was a digit. *)
Fixpoint digits (acc : Z) (prev : bool) (l : list ascii) : option Z :=
  match l with
  | [] => if prev then Some acc else None
  | c :: r =>
      if is_digit c then digits (10 * acc + digit_value c) true r
      else if Ascii.eqb c "_"%char then
             (if prev then digits acc false r else None)
      else None
  end.

(** The default of [sys.int_max_str_digits] (Python 3.11 and later):
    [int] raises [ValueError] on a literal with more digits, leading
    zeros counted, sign and underscores not. *)
Definition INT_MAX_STR_DIGITS : Z := 4300.

Definition within_digit_limit (l : list ascii) : bool :=
  Z.of_nat (List.length (filter is_digit l)) <=? INT_MAX_STR_DIGITS.

(** A literal after its sign: well formed, and within the limit. *)
Definition literal (l : list ascii) : option Z :=
  match digits 0 false l with
  | Some x => if within_digit_limit l then Some x else None
  | None => None
  end.

(** [int(s)] in base 10: surrounding white space, an optional sign, then
    the digits. [None] stands for the [ValueError] of [int]. *)
Definition py_int (s : string) : option Z :=
  match strip (list_ascii_of_string s) with
  | c :: r =>
      if Ascii.eqb c "-"%char then option_map Z.opp (literal r)
      else if Ascii.eqb c "+"%char then literal r
      else literal (c :: r)
  | [] => None
  end.

(* ================================================================== *)
(** * Durations and instants *)

(** Keyword arguments of [timedelta] that the program uses. *)
Record kwargs : Type := { kw_days : Z; kw_hours : Z; kw_weeks : Z }.

Definition MAX_DELTA_DAYS : Z := 999999999.

(** The call of [timedelta] on keyword arguments, in seconds; the day
    count of the normalised value must have magnitude at most
    [MAX_DELTA_DAYS]. *)
Definition timedelta (k : kwargs) : result Z :=
  let total := kw_days k * 86400 + kw_hours k * 3600 + kw_weeks k * 604800 in
  let days := total / 86400 in
  if ((- MAX_DELTA_DAYS <=? days) && (days <=? MAX_DELTA_DAYS))%bool
  then Ok total else Raise OverflowError.

Definition hours (n : Z) : Z := n * 3600.
Definition days (n : Z) : Z := n * 86400.

(** [datetime.min] and [datetime.max], at second precision. *)
Definition DATETIME_MIN : Z := -62135596800.
Definition DATETIME_MAX : Z := 253402300799.

(** [now + delta] on datetimes. *)
Definition datetime_add (now delta : Z) : result Z :=
  let t := now + delta in
  if ((DATETIME_MIN <=? t) && (t <=? DATETIME_MAX))%bool
  then Ok t else Raise OverflowError.

(* ================================================================== *)
(** * parse_interval *)

Definition suffixmap (c : ascii) : option (Z -> kwargs) :=
  if Ascii.eqb c "d"%char then Some (fun x => {| kw_days := x; kw_hours := 0; kw_weeks := 0 |})
  else if Ascii.eqb c "h"%char then Some (fun x => {| kw_days := 0; kw_hours := x; kw_weeks := 0 |})
  else if Ascii.eqb c "m"%char then Some (fun x => {| kw_days := x * 30; kw_hours := 0; kw_weeks := 0 |})
  else if Ascii.eqb c "w"%char then Some (fun x => {| kw_days := 0; kw_hours := 0; kw_weeks := x |})
  else None.

(** The subscript [interval[-1]] is evaluated first and is outside what
    the two handlers catch; then the lookup in [suffixmap] ([KeyError],
    turned into a [ValueError]), then [int] of the rest ([ValueError],
    re-raised with another message); [timedelta] is called in the [else]
    branch, outside the handlers. *)
Definition parse_interval (interval : string) : result Z :=
  match last_char interval with
  | None => Raise IndexError
  | Some c =>
      match suffixmap c with
      | None => Raise (ValueError (UnsupportedSuffix c))
      | Some f =>
          match py_int (but_last interval) with
          | None => Raise (ValueError NotANumber)
          | Some x => timedelta (f x)
          end
      end
  end.

(** The two places where [main] unpacks [token.split(':')] into exactly
    two names, [m] being the message of the [ValueError] it raises
    otherwise; the two halves are parsed left to right. *)
Definition parse_pair (m : message) (token : string) : result (Z * Z) :=
  match str_split ":"%char token with
  | [a; b] =>
      x <- parse_interval a ;;
      y <- parse_interval b ;;
      Ok (x, y)
  | _ => Raise (ValueError m)
  end.

(* ================================================================== *)
(** * Stable sorting

    [list.sort(key=...)] and [sorted(..., key=...)] are stable; the
    stable sort of a list is unique, and insertion from the right
    computes it. *)

Section Sort.
Variable A : Type.
Variable key : A -> Z.

Fixpoint insert_by (x : A) (l : list A) : list A :=
  match l with
  | [] => [x]
  | y :: r => if key x <=? key y then x :: y :: r else y :: insert_by x r
  end.

Fixpoint sort_by (l : list A) : list A :=
  match l with
  | [] => []
  | x :: r => insert_by x (sort_by r)
  end.
End Sort.

(** A policy is the pair (interval, age). [policies.sort(key=lambda p:
    p[1], reverse=True)] keeps the order of equal keys, as a stable
    ascending sort on the negated key does. *)
Definition policy : Type := (Z * Z)%type.

Definition sort_policies (policies : list policy) : list policy :=
  sort_by (fun p => - snd p) policies.

(** The loop of [main] over [args.keep]. *)
Fixpoint parse_keeps (keep : list string) : result (list policy) :=
  match keep with
  | [] => Ok []
  | k :: rest =>
      p <- parse_pair KeepForm k ;;
      ps <- parse_keeps rest ;;
      Ok (p :: ps)
  end.

Definition parse_policies (keep : list string) : result (list policy) :=
  ps <- parse_keeps keep ;;
  Ok (sort_policies ps).

(* ================================================================== *)
(** * Snapshots, dictionaries, the API *)

(** A snapshot as the API returns it ([id], [name], [created_at],
    [regions]) with the two keys the retention pass adds to the same
    dictionary, absent until it has run. *)
Record snapshot : Type := mkSnapshot {
  id : Z;
  name : string;
  created_at : Z;
  regions : list string;
  created_dt : option Z;
  age : option Z
}.

(** [snapshot[key]] on a key that may be absent. *)
Definition field (A : Type) (v : option A) : result A :=
  match v with
  | Some a => Ok a
  | None => Raise KeyError
  end.

(** Insertion-ordered dictionaries, as association lists without
    repeated keys. *)
Section Dict.
Variables K V : Type.
Variable eqb : K -> K -> bool.

(** [d[k] = v] *)
Fixpoint dict_set (k : K) (v : V) (d : list (K * V)) : list (K * V) :=
  match d with
  | [] => [(k, v)]
  | (k', v') :: r =>
      if eqb k k' then (k', v) :: r else (k', v') :: dict_set k v r
  end.

(** [del d[k]] *)
Fixpoint dict_del (k : K) (d : list (K * V)) : result (list (K * V)) :=
  match d with
  | [] => Raise KeyError
  | (k', v') :: r =>
      if eqb k k' then Ok r
      else r' <- dict_del k r ;; Ok ((k', v') :: r')
  end.

Definition dict_values (d : list (K * V)) : list V := map snd d.
Definition dict_keys (d : list (K * V)) : list K := map fst d.
End Dict.

(** [d.setdefault(k, []).append(v)] *)
Fixpoint dict_append (K V : Type) (eqb : K -> K -> bool) (k : K) (v : V)
    (d : list (K * list V)) : list (K * list V) :=
  match d with
  | [] => [(k, [v])]
  | (k', l) :: r =>
      if eqb k k' then (k', l ++ [v]) :: r
      else (k', l) :: dict_append eqb k v r
  end.

Definition policy_eqb (p q : policy) : bool :=
  ((fst p =? fst q) && (snd p =? snd q))%bool.

(** The requests the program sends through [api]. *)
Inductive request : Type :=
| DeleteSnapshot (snapshot_id : Z)                   (* delete snapshots/{id} *)
| TransferSnapshot (snapshot_id : Z) (r : string)    (* post images/{id}/actions, type transfer *)
| CreateSnapshot (droplet_id : Z) (n : string).      (* post droplets/{id}/actions, type snapshot *)

(** The requests sent so far, oldest first. *)
Definition world : Type := list request.

Record args : Type := mkArgs {
  dryrun : bool;
  region : list string
}.

Record droplet : Type := mkDroplet {
  droplet_id : Z;
  droplet_name : string
}.

(** [api]: nothing is sent under [dryrun]. *)
Definition api (a : args) (r : request) (w : world) : world :=
  if dryrun a then w else w ++ [r].

(** What the process cannot fix by its arguments: the order in which a
    [set] of strings is iterated, which depends on the hash seed of the
    run. [set_order e l] lists once each the elements of the set built
    from [l]. *)
Record env : Type := mkEnv {
  set_order : list string -> list string
}.

Definition env_ok (e : env) : Prop :=
  forall l, NoDup (set_order e l) /\ forall x, In x (set_order e l) <-> In x l.

(* ================================================================== *)
(** * Snapshot names

    [now.strftime(prefix + '%Y%m%dT%H%M%SZ')] as the C library of Linux
    formats it, for a prefix without directives of its own. *)

(** Year, month and day of a day count since 1970-01-01 (proleptic
    Gregorian calendar). *)
Definition civil_of_days (z : Z) : Z * Z * Z :=
  let z := z + 719468 in
  let era := z / 146097 in
  let doe := z - era * 146097 in
  let yoe := (doe - doe / 1460 + doe / 36524 - doe / 146096) / 365 in
  let doy := doe - (365 * yoe + yoe / 4 - yoe / 100) in
  let mp := (5 * doy + 2) / 153 in
  let d := doy - (153 * mp + 2) / 5 + 1 in
  let m := if mp <? 10 then mp + 3 else mp - 9 in
  let y := yoe + era * 400 + (if m <=? 2 then 1 else 0) in
  (y, m, d).

Definition digit_char (d : Z) : ascii := ascii_of_nat (48 + Z.to_nat (d mod 10)).

Definition pad2 (n : Z) : string :=
  String (digit_char (n / 10)) (String (digit_char n) EmptyString).

Definition pad4 (n : Z) : string :=
  String (digit_char (n / 1000)) (String (digit_char (n / 100)) (pad2 n)).

(** [%Y]: the year in decimal, without padding below 1000 (the year of
    a [datetime] is between 1 and 9999). *)
Definition year_text (y : Z) : string :=
  if y <? 10 then String (digit_char y) EmptyString
  else if y <? 100 then pad2 y
  else if y <? 1000 then String (digit_char (y / 100)) (pad2 y)
  else pad4 y.

Definition stamp (now : Z) : string :=
  let '(y, m, d) := civil_of_days (now / 86400) in
  let sod := now mod 86400 in
  (year_text y ++ pad2 m ++ pad2 d ++ "T"
   ++ pad2 (sod / 3600) ++ pad2 (sod mod 3600 / 60) ++ pad2 (sod mod 60) ++ "Z")%string.

Definition strftime_name (prefix : string) (now : Z) : string :=
  (prefix ++ stamp now)%string.

(** Truth value of a string: the empty string is false. *)
Definition truthy (s : string) : bool :=
  match s with
  | EmptyString => false
  | String _ _ => true
  end.

(* ================================================================== *)
(** * ensure_snapshot_regions *)

Definition mem_string (x : string) (l : list string) : bool :=
  existsb (String.eqb x) l.

(** [set(regions) - set(snapshot['regions'])] *)
Definition missing_regions (e : env) (s : snapshot) (wanted : list string) : list string :=
  set_order e (filter (fun r => negb (mem_string r (regions s))) wanted).

(** One transfer request for each missing region; the snapshot is left
    as it is. *)
Definition ensure_snapshot_regions (e : env) (a : args) (s : snapshot)
    (wanted : list string) (w : world) : world :=
  fold_left (fun w r => api a (TransferSnapshot (id s) r) w)
            (missing_regions e s wanted) w.

(* ================================================================== *)
(** * apply_retention_policies *)

(** The two assignments [snapshot['created_dt'] = ...] and
    [snapshot['age'] = ...] of the grouping loop. *)
Definition annotate (now : Z) (s : snapshot) : snapshot :=
  {| id := id s; name := name s; created_at := created_at s;
     regions := regions s;
     created_dt := Some (created_at s);
     age := Some (now - created_at s) |}.

(** The inner loop over [policies], left at the first policy whose age
    the snapshot has reached. *)
Fixpoint first_policy (policies : list policy) (snapshot_age : Z) : option policy :=
  match policies with
  | [] => None
  | (interval, age) :: rest =>
      if age <=? snapshot_age then Some (interval, age)
      else first_policy rest snapshot_age
  end.

(** One turn of the grouping loop: the state is the list as annotated so
    far and [snapshots_by_policy]. *)
Definition classify (policies : list policy) (now : Z)
    (st : list snapshot * list (policy * list snapshot)) (s : snapshot)
    : list snapshot * list (policy * list snapshot) :=
  let snapshot_time := created_at s in
  let snapshot_age := now - snapshot_time in
  let s := {| id := id s; name := name s; created_at := created_at s;
              regions := regions s;
              created_dt := Some snapshot_time;
              age := Some snapshot_age |} in
  (fst st ++ [s],
   match first_policy policies snapshot_age with
   | Some p => dict_append policy_eqb p s (snd st)
   | None => snd st
   end).

(** The loop over one group, oldest snapshot first. The condition is
    [not interval or (last_kept and created_dt - last_kept < interval)];
    a [datetime] is always true, so [last_kept] is false only when it is
    [None]. The delete request goes out before the dictionary entry is
    removed. *)
Fixpoint thin_group (a : args) (interval : Z) (group : list snapshot)
    (last_kept : option Z) (by_id : list (Z * snapshot)) (w : world)
    : result (list (Z * snapshot) * world) :=
  match group with
  | [] => Ok (by_id, w)
  | s :: rest =>
      del <- (if interval =? 0 then Ok true
              else match last_kept with
                   | None => Ok false
                   | Some lk =>
                       dt <- field (created_dt s) ;;
                       Ok (dt - lk <? interval)
                   end) ;;
      if del : bool then
        let w := api a (DeleteSnapshot (id s)) w in
        by_id <- dict_del Z.eqb (id s) by_id ;;
        thin_group a interval rest last_kept by_id w
      else
        dt <- field (created_dt s) ;;
        thin_group a interval rest (Some dt) by_id w
  end.

(** The loop over [snapshots_by_policy.items()]. *)
Fixpoint thin_all (a : args) (groups : list (policy * list snapshot))
    (by_id : list (Z * snapshot)) (w : world)
    : result (list (Z * snapshot) * world) :=
  match groups with
  | [] => Ok (by_id, w)
  | ((interval, _), group) :: rest =>
      '(by_id, w) <- thin_group a interval group None by_id w ;;
      thin_all a rest by_id w
  end.

Definition index_by_id (snapshots : list snapshot) : list (Z * snapshot) :=
  fold_left (fun d s => dict_set Z.eqb (id s) s d) snapshots [].

Definition group_by_policy (policies : list policy) (now : Z)
    (sorted : list snapshot) : list snapshot * list (policy * list snapshot) :=
  fold_left (classify policies now) sorted ([], []).

(** The result has three parts: the caller's list as the call leaves it
    (sorted in place, every snapshot annotated), the survivors, and the
    requests sent.

    [snapshots_by_id] is built before the annotations are made, but it
    holds the very objects of the list, each of which the grouping loop
    annotates; its values are therefore read through [annotate]. *)
Definition apply_retention_policies (a : args) (snapshots : list snapshot)
    (policies : list policy) (now : Z) (w : world)
    : result (list snapshot * list snapshot * world) :=
  let snapshots_by_id := index_by_id snapshots in
  let snapshots := sort_by created_at snapshots in
  let '(snapshots, snapshots_by_policy) := group_by_policy policies now snapshots in
  '(snapshots_by_id, w) <- thin_all a snapshots_by_policy snapshots_by_id w ;;
  Ok (snapshots,
      sort_by created_at (map (annotate now) (dict_values snapshots_by_id)),
      w).

(* ================================================================== *)
(** * process_droplet *)

Definition set_regions (s : snapshot) (rs : list string) : snapshot :=
  {| id := id s; name := name s; created_at := created_at s;
     regions := rs; created_dt := created_dt s; age := age s |}.

(** The body of the loop over the survivors: the transfer requests, then
    [snapshot['regions'] = list(set(snapshot['regions']).union(args.region))]. *)
Definition sync_regions (e : env) (a : args) (s : snapshot) (w : world)
    : snapshot * world :=
  let w := ensure_snapshot_regions e a s (region a) w in
  (set_regions s (set_order e (regions s ++ region a)), w).

Fixpoint sync_all (e : env) (a : args) (survivors : list snapshot) (w : world)
    : list snapshot * world :=
  match survivors with
  | [] => ([], w)
  | s :: rest =>
      let '(s, w) := sync_regions e a s w in
      let '(rest, w) := sync_all e a rest w in
      (s :: rest, w)
  end.

(** [snapshots[-1]] of a list known not to be empty. *)
Fixpoint last_snapshot (l : list snapshot) : option snapshot :=
  match l with
  | [] => None
  | [s] => Some s
  | _ :: r => last_snapshot r
  end.

(** [not snapshots or snapshots[-1]['age'] >= min_age], on the list the
    retention pass has sorted and annotated in place. *)
Definition snapshot_due (snapshots : list snapshot) (min_age : Z) : result bool :=
  match last_snapshot snapshots with
  | None => Ok true
  | Some s => ag <- field (age s) ;; Ok (min_age <=? ag)
  end.

(** Returns the survivors, the name of the snapshot taken if any, and
    the requests sent. *)
Definition process_droplet (e : env) (a : args) (d : droplet)
    (snapshots : list snapshot) (policies : list policy) (min_age : Z)
    (prefix : string) (now : Z) (w : world)
    : result (list snapshot * option string * world) :=
  '(snapshots, survivors, w) <- apply_retention_policies a snapshots policies now w ;;
  let '(survivors, w) :=
    match region a with
    | [] => (survivors, w)
    | _ :: _ => sync_all e a survivors w
    end in
  due <- snapshot_due snapshots min_age ;;
  if due : bool then
    let snapshot_name := strftime_name prefix now in
    let w := api a (CreateSnapshot (droplet_id d) snapshot_name) w in
    Ok (survivors, Some snapshot_name, w)
  else
    Ok (survivors, None, w).

(* ================================================================== *)
(** * The simulation of main *)

Definition simulated : droplet := {| droplet_id := 0; droplet_name := "simulated" |}.

(** The [if newsnapshot:] of the loop: a new snapshot is appended when
    [process_droplet] returned a name (a non-empty string). *)
Definition record_snapshot (snapshot_id now : Z) (snapshots : list snapshot)
    (newsnapshot : option string) : list snapshot :=
  match newsnapshot with
  | Some n =>
      if truthy n then
        snapshots ++ [ {| id := snapshot_id; name := n;
                          created_at := now; regions := [];
                          created_dt := None; age := None |} ]
      else snapshots
  | None => snapshots
  end.

(** The while loop. [idgen] is the next value of [itertools.count()].
    [None] when [fuel] iterations were not enough to leave the loop. *)
Fixpoint simulate_loop (fuel : nat) (e : env) (a : args) (policies : list policy)
    (min_age : Z) (prefix : string) (interval stop now idgen : Z)
    (snapshots : list snapshot) (w : world)
    : option (result (list snapshot * world)) :=
  match fuel with
  | O => None
  | S fuel =>
      if now <? stop then
        let snapshot_id := idgen in
        match process_droplet e a simulated snapshots policies min_age prefix now w with
        | Raise x => Some (Raise x)
        | Ok (snapshots, newsnapshot, w) =>
            let snapshots := record_snapshot snapshot_id now snapshots newsnapshot in
            match datetime_add now interval with
            | Raise x => Some (Raise x)
            | Ok now =>
                simulate_loop fuel e a policies min_age prefix interval stop
                              now (idgen + 1) snapshots w
            end
        end
      else Some (Ok (snapshots, w))
  end.

(** The simulation branch of [main] after the arguments are parsed:
    [--simulate] forces [dryrun]. *)
Definition simulate (fuel : nat) (e : env) (wanted : list string)
    (policies : list policy) (min_age : Z) (prefix : string)
    (interval duration now : Z) : option (result (list snapshot * world)) :=
  let a := {| dryrun := true; region := wanted |} in
  match datetime_add now duration with
  | Raise x => Some (Raise x)
  | Ok stop =>
      simulate_loop fuel e a policies min_age prefix interval stop now 0 [] []
  end.

(** The two columns printed for each remaining snapshot. *)
Definition report (snapshots : list snapshot) : list (Z * string) :=
  map (fun s => (created_at s, name s)) snapshots.

(* ================================================================== *)
(** * The loop of main over the droplets *)

(** [sub in s] on strings. *)
Fixpoint contains (sub s : string) : bool :=
  (String.prefix sub s
   || match s with
      | EmptyString => false
      | String _ r => contains sub r
      end)%bool.

(** [s.replace(old, new)] for a non-empty [old] (the program replaces
    ['$tag'] and ['$droplet']): occurrences are replaced from the left
    and do not overlap. [skip] counts the characters of a replaced
    occurrence still to pass over. *)
Fixpoint replace_from (old new : string) (skip : nat) (s : string) : string :=
  match s with
  | EmptyString => EmptyString
  | String c r =>
      match skip with
      | S k => replace_from old new k r
      | O =>
          if String.prefix old s
          then (new ++ replace_from old new (String.length old - 1) r)%string
          else String c (replace_from old new O r)
      end
  end.

Definition str_replace (old new s : string) : string := replace_from old new O s.

(** [prefix = args.prefix.replace('$droplet', droplet['name'])] *)
Definition droplet_prefix (args_prefix : string) (d : droplet) : string :=
  str_replace "$droplet" (droplet_name d) args_prefix.

(** The filter on the listing of a droplet's snapshots:
    [[snapshot for snapshot in ... if prefix in snapshot['name']]]. *)
Definition autosnapshots (prefix : string) (listing : list snapshot) : list snapshot :=
  filter (fun s => contains prefix (name s)) listing.

(** The body of the loop, [listing] being what the API answers for the
    droplet's snapshots. *)
Definition process_listing (e : env) (a : args) (args_prefix : string)
    (d : droplet) (listing : list snapshot) (policies : list policy)
    (min_age now : Z) (w : world)
    : result (list snapshot * option string * world) :=
  let prefix := droplet_prefix args_prefix d in
  let snapshots := autosnapshots prefix listing in
  process_droplet e a d snapshots policies min_age prefix now w.

(** The loop: the droplets with the listing of each; what
    [process_droplet] returns is dropped, an exception ends the loop. *)
Fixpoint process_droplets (e : env) (a : args) (args_prefix : string)
    (droplets : list (droplet * list snapshot)) (policies : list policy)
    (min_age now : Z) (w : world) : result world :=
  match droplets with
  | [] => Ok w
  | (d, listing) :: rest =>
      '(_, _, w) <- process_listing e a args_prefix d listing policies min_age now w ;;
      process_droplets e a args_prefix rest policies min_age now w
  end.

(* ================================================================== *)
(** * Notions used to state the properties *)

Definition memZ (x : Z) (l : list Z) : bool := existsb (Z.eqb x) l.

(** The data model's invariant on a list of snapshots: identifiers are
    unique. *)
Definition unique_ids (l : list snapshot) : Prop := NoDup (map id l).

Definition sorted_by_created_at (l : list snapshot) : Prop :=
  StronglySorted (fun s t => created_at s <= created_at t) l.

(** Policies in the order [main] hands them over: oldest age first. *)
Definition descending_age (policies : list policy) : Prop :=
  StronglySorted (fun p q => snd q <= snd p) policies.

(** The policy the grouping loop picks for a snapshot, if any. *)
Definition tier_of (policies : list policy) (now : Z) (s : snapshot) : option policy :=
  first_policy policies (now - created_at s).

Definition in_tier (policies : list policy) (now : Z) (k : policy) (s : snapshot) : bool :=
  match tier_of policies now s with
  | Some q => policy_eqb q k
  | None => false
  end.

(** The test of the thinning loop, on the creation time of [s]. *)
Definition too_close (interval : Z) (last_kept : option Z) (s : snapshot) : bool :=
  ((interval =? 0)
   || match last_kept with
      | None => false
      | Some lk => created_at s - lk <? interval
      end)%bool.

(** The snapshots of a group that the thinning loop preserves, and those
    it deletes. *)
Fixpoint kept (interval : Z) (last_kept : option Z) (group : list snapshot) : list snapshot :=
  match group with
  | [] => []
  | s :: rest =>
      if too_close interval last_kept s then kept interval last_kept rest
      else s :: kept interval (Some (created_at s)) rest
  end.

Fixpoint doomed (interval : Z) (last_kept : option Z) (group : list snapshot) : list snapshot :=
  match group with
  | [] => []
  | s :: rest =>
      if too_close interval last_kept s then s :: doomed interval last_kept rest
      else doomed interval (Some (created_at s)) rest
  end.

Definition doomed_all (groups : list (policy * list snapshot)) : list snapshot :=
  flat_map (fun g => doomed (fst (fst g)) None (snd g)) groups.

Fixpoint del_many (ks : list Z) (d : list (Z * snapshot)) : result (list (Z * snapshot)) :=
  match ks with
  | [] => Ok d
  | k :: rest => d' <- dict_del Z.eqb k d ;; del_many rest d'
  end.

Definition delete_requests (a : args) (ids : list Z) (w : world) : world :=
  fold_left (fun w i => api a (DeleteSnapshot i) w) ids w.

(** A snapshot on which the grouping loop has run. *)
Definition annotated (s : snapshot) : Prop := created_dt s = Some (created_at s).

(** The survivors in closed form: the snapshots of the sorted, annotated
    list whose identifier the thinning loops did not delete. *)
Definition survives (policies : list policy) (now : Z) (l' : list snapshot)
    (s : snapshot) : bool :=
  negb (memZ (id s) (map id (doomed_all (snd (group_by_policy policies now l'))))).

(** Minimum spacing along a list of creation times. *)
Fixpoint spaced (interval : Z) (last_kept : option Z) (l : list snapshot) : Prop :=
  match l with
  | [] => True
  | s :: rest =>
      match last_kept with
      | Some lk => interval <= created_at s - lk
      | None => True
      end /\ spaced interval (Some (created_at s)) rest
  end.

(** The scheduler's rule as the specification words it, on the
    survivors, with the age derived from the reference time. *)
Definition due_by_survivors (survivors : list snapshot) (min_age now : Z) : Prop :=
  survivors = [] \/
  exists s, last_snapshot survivors = Some s /\ min_age <= now - created_at s.

(** The rule as [process_droplet] applies it, on the list it was given. *)
Definition due_by_input (snapshots : list snapshot) (min_age now : Z) : Prop :=
  snapshots = [] \/
  exists s, last_snapshot (sort_by created_at snapshots) = Some s /\
            min_age <= now - created_at s.

(** The fields of a snapshot that the data model stores, the region set
    apart. *)
Definition same_identity (s t : snapshot) : Prop :=
  id s = id t /\ name s = name t /\ created_at s = created_at t.

Definition same_stored_fields (s t : snapshot) : Prop :=
  same_identity s t /\ created_dt s = created_dt t /\ age s = age t.

Definition erase_regions (s : snapshot) : snapshot := set_regions s [].

(** What the grouping loop has built once it has gone through the
    (annotated) list [done]: one entry for each policy some snapshot was
    assigned to, holding those snapshots in the order of the list. *)
Definition grouped (policies : list policy) (now : Z) (done : list snapshot)
    (groups : list (policy * list snapshot)) : Prop :=
  NoDup (map fst groups) /\
  (forall k g, In (k, g) groups ->
               g = filter (in_tier policies now k) done /\ g <> []) /\
  (forall s k, In s done -> tier_of policies now s = Some k ->
               In k (map fst groups)).

(** The test of [process_droplet] on the sorted list, as a boolean. *)
Definition due_now (l : list snapshot) (min_age now : Z) : bool :=
  match last_snapshot l with
  | None => true
  | Some s => min_age <=? now - created_at s
  end.

(** The snapshot after the region step. *)
Definition grow_regions (e : env) (a : args) (s : snapshot) : snapshot :=
  set_regions s (set_order e (regions s ++ region a)).

Definition synced (e : env) (a : args) (survivors : list snapshot) : list snapshot :=
  match region a with
  | [] => survivors
  | _ :: _ => map (grow_regions e a) survivors
  end.

(** The survivors of the retention pass, in closed form. *)
Definition retained (policies : list policy) (now : Z) (snapshots : list snapshot)
    : list snapshot :=
  filter (survives policies now (sort_by created_at snapshots))
         (map (annotate now) (sort_by created_at snapshots)).

(** What holds of the simulation's list at each turn of the loop:
    identifiers are unique and below the next value of the counter. *)
Definition sim_inv (idgen : Z) (l : list snapshot) : Prop :=
  unique_ids l /\ forall s, In s l -> id s < idgen.

(** Groups with the regions of their snapshots erased. *)
Definition erase_groups (groups : list (policy * list snapshot))
    : list (policy * list snapshot) :=
  map (fun g => (fst g, map erase_regions (snd g))) groups.

(** Two outcomes of the simulation that cannot be told apart: the same
    exception, or lists that agree on everything but the order in which
    the regions of a snapshot are listed, hence the same printed report,
    and no request sent. *)
Definition same_outcome (wanted : list string)
    (r1 r2 : result (list snapshot * world)) : Prop :=
  match r1, r2 with
  | Ok (l1, w1), Ok (l2, w2) =>
      report l1 = report l2 /\
      map erase_regions l1 = map erase_regions l2 /\
      (wanted = [] -> l1 = l2) /\
      w1 = [] /\ w2 = []
  | Raise x1, Raise x2 => x1 = x2
  | _, _ => False
  end.

(** Where a request of [process_droplet] comes from: a deletion or a
    transfer concerns a snapshot of the list handed over, a transfer goes
    to a wanted region, a creation is for the droplet under the name
    returned. *)
Definition request_from (a : args) (d : droplet) (snapshots : list snapshot)
    (taken : option string) (r : request) : Prop :=
  match r with
  | DeleteSnapshot i => In i (map id snapshots)
  | TransferSnapshot i rg => In i (map id snapshots) /\ In rg (region a)
  | CreateSnapshot i n => i = droplet_id d /\ taken = Some n
  end.

(** The instants at which the simulation runs [process_droplet]:
    [start], [start + interval], ... below [stop]. *)
Definition tick (start interval stop t : Z) : Prop :=
  exists k, 0 <= k /\ t = start + k * interval /\ t < stop.

(** What holds of each snapshot of the simulation's list when the clock
    shows [now]: it was created at an earlier tick and is named after
    that tick. *)
Definition simulated_at (prefix : string) (start interval stop now : Z)
    (s : snapshot) : Prop :=
  created_at s < now /\
  tick start interval stop (created_at s) /\
  name s = strftime_name prefix (created_at s).

(** The year of an instant. *)
Definition year_of (now : Z) : Z := fst (fst (civil_of_days (now / 86400))).

(** Two snapshots that differ at most in the order in which their
    regions are listed. *)
Definition same_but_region_order (s t : snapshot) : Prop :=
  erase_regions s = erase_regions t /\
  forall r, In r (regions s) <-> In r (regions t).

(* ================================================================== *)
(** * Sample data *)

Definition snap (i : Z) (t : Z) : snapshot :=
  {| id := i; name := "web-autosnapshot"; created_at := t; regions := [];
     created_dt := None; age := None |}.

Definition live : args := {| dryrun := false; region := [] |}.

(** An iteration order for sets of strings: first occurrence last. *)
Definition sample_env : env := {| set_order := nodup string_dec |}.

(** Another iteration order for sets of strings. *)
Definition other_env : env := {| set_order := fun l => rev (nodup string_dec l) |}.

(** 2018-11-04T12:34:56, a start time for the simulation. *)
Definition sample_start : Z := 1541334896.

Ltac unique_ids_tac :=
  unfold unique_ids; simpl;
  repeat (constructor; [simpl; intuition discriminate|]); constructor.

(* ================================================================== *)
(** * Facts about stable sorting *)

Section SortFacts.
Variable A : Type.
Variable key : A -> Z.

Let le (x y : A) : Prop := key x <= key y.

Lemma insert_by_perm (x : A) (l : list A) :
  Permutation (insert_by key x l) (x :: l).
Proof.
  induction l as [|y r IH]; simpl; [reflexivity|].
  destruct (key x <=? key y); [reflexivity|].
  rewrite IH. apply perm_swap.
Qed.

Lemma sort_by_perm (l : list A) : Permutation (sort_by key l) l.
Proof.
  induction l as [|x r IH]; simpl; [constructor|].
  rewrite insert_by_perm. now constructor.
Qed.

Lemma in_sort_by (x : A) (l : list A) : In x (sort_by key l) <-> In x l.
Proof.
  split; apply Permutation_in; [|symmetry]; apply sort_by_perm.
Qed.

Lemma insert_by_sorted (x : A) (l : list A) :
  StronglySorted le l -> StronglySorted le (insert_by key x l).
Proof.
  induction 1 as [|y r Hr IH Hy]; simpl.
  - repeat constructor.
  - destruct (key x <=? key y) eqn:E.
    + apply Z.leb_le in E. constructor; [now constructor|].
      constructor; [exact E|].
      eapply Forall_impl; [|exact Hy]. unfold le. intros; lia.
    + apply Z.leb_gt in E. constructor; [exact IH|].
      rewrite Forall_forall in *. intros z Hz.
      apply (Permutation_in _ (insert_by_perm x r)) in Hz.
      destruct Hz as [<-|Hz]; [unfold le; lia|now apply Hy].
Qed.

Lemma sort_by_sorted (l : list A) : StronglySorted le (sort_by key l).
Proof.
  induction l; simpl; [constructor|now apply insert_by_sorted].
Qed.

Lemma insert_by_head (x : A) (l : list A) :
  (forall y, In y l -> key x <= key y) -> insert_by key x l = x :: l.
Proof.
  destruct l as [|y r]; simpl; [reflexivity|]. intros H.
  destruct (Z.leb_spec (key x) (key y)); [reflexivity|].
  specialize (H y (or_introl eq_refl)). lia.
Qed.

Lemma sort_by_fixed (l : list A) : StronglySorted le l -> sort_by key l = l.
Proof.
  induction 1 as [|x r Hr IH Hx]; simpl; [reflexivity|].
  rewrite IH. apply insert_by_head. now rewrite Forall_forall in Hx.
Qed.

Lemma sorted_filter (p : A -> bool) (l : list A) :
  StronglySorted le l -> StronglySorted le (filter p l).
Proof.
  induction 1 as [|x r Hr IH Hx]; simpl; [constructor|].
  destruct (p x); [|exact IH]. constructor; [exact IH|].
  rewrite Forall_forall in *. intros y Hy. apply filter_In in Hy. now apply Hx.
Qed.

Lemma filter_insert_by (p : A -> bool) (x : A) (l : list A) :
  StronglySorted le l ->
  filter p (insert_by key x l)
  = if p x then insert_by key x (filter p l) else filter p l.
Proof.
  induction 1 as [|y r Hr IH Hy]; simpl.
  - now destruct (p x).
  - destruct (Z.leb_spec (key x) (key y)) as [Hxy|Hxy]; simpl.
    + destruct (p x) eqn:Px; [|reflexivity].
      destruct (p y) eqn:Py; simpl.
      * destruct (Z.leb_spec (key x) (key y)); [reflexivity|lia].
      * symmetry. apply insert_by_head. intros z Hz.
        apply filter_In in Hz. rewrite Forall_forall in Hy.
        specialize (Hy z (proj1 Hz)). unfold le in Hy. lia.
    + rewrite IH. destruct (p y) eqn:Py; destruct (p x) eqn:Px; simpl;
        try reflexivity.
      destruct (Z.leb_spec (key x) (key y)); [lia|reflexivity].
Qed.

Lemma sort_by_filter (p : A -> bool) (l : list A) :
  sort_by key (filter p l) = filter p (sort_by key l).
Proof.
  induction l as [|x r IH]; simpl; [reflexivity|].
  rewrite filter_insert_by by apply sort_by_sorted.
  destruct (p x); simpl; now rewrite IH.
Qed.

Lemma sort_by_map (f : A -> A) (l : list A) :
  (forall x, key (f x) = key x) ->
  sort_by key (map f l) = map f (sort_by key l).
Proof.
  intros Hf. induction l as [|x r IH]; simpl; [reflexivity|].
  rewrite IH. generalize (sort_by key r). intros m.
  induction m as [|y m IHm]; simpl; [reflexivity|].
  rewrite !Hf. destruct (key x <=? key y); simpl; [reflexivity|].
  now rewrite IHm.
Qed.
End SortFacts.

(* ================================================================== *)
(** * Facts about the dictionaries *)

Lemma memZ_In (x : Z) (l : list Z) : memZ x l = true <-> In x l.
Proof.
  unfold memZ. rewrite existsb_exists. split.
  - intros (y & Hy & E). apply Z.eqb_eq in E. now subst.
  - intros H. exists x. split; [exact H|apply Z.eqb_refl].
Qed.

Lemma memZ_not_In (x : Z) (l : list Z) : memZ x l = false <-> ~ In x l.
Proof.
  rewrite <- memZ_In. destruct (memZ x l); split; congruence.
Qed.

Lemma filter_filter (A : Type) (f g : A -> bool) (l : list A) :
  filter f (filter g l) = filter (fun x => g x && f x)%bool l.
Proof.
  induction l as [|x r IH]; simpl; [reflexivity|].
  destruct (g x); simpl; [destruct (f x)|]; now rewrite IH.
Qed.

Lemma filter_all (A : Type) (f : A -> bool) (l : list A) :
  (forall x, In x l -> f x = true) -> filter f l = l.
Proof.
  induction l as [|x r IH]; simpl; intros H; [reflexivity|].
  rewrite (H x (or_introl eq_refl)). f_equal. apply IH. auto.
Qed.

Lemma filter_map_comm (A B : Type) (f : A -> B) (p : B -> bool) (l : list A) :
  filter p (map f l) = map f (filter (fun x => p (f x)) l).
Proof.
  induction l as [|x r IH]; simpl; [reflexivity|].
  destruct (p (f x)); simpl; now rewrite IH.
Qed.

Lemma NoDup_map_eq (A B : Type) (f : A -> B) (l : list A) (x y : A) :
  NoDup (map f l) -> In x l -> In y l -> f x = f y -> x = y.
Proof.
  induction l as [|z r IH]; simpl; [tauto|].
  intros H Hx Hy E. inversion H as [|? ? Hz Hr]; subst.
  destruct Hx as [->|Hx], Hy as [->|Hy]; auto.
  - exfalso. apply Hz. rewrite E. now apply in_map.
  - exfalso. apply Hz. rewrite <- E. now apply in_map.
Qed.

Lemma filter_keeps_distinct (A B : Type) (key : A -> B) (keep : A -> bool)
    (items : list A) (H : NoDup (map key items)) :
  NoDup (map key (filter keep items)).
Proof.
  induction items as [|x r IH]; simpl; [constructor|].
  simpl in H. apply NoDup_cons_iff in H as [Hx Hr].
  destruct (keep x); simpl; [|auto]. constructor; [|auto].
  intros Hin. apply Hx. apply in_map_iff in Hin as (y & E & Hy).
  apply filter_In in Hy. apply in_map_iff. exists y. tauto.
Qed.

Section DictFacts.
Variable V : Type.
Implicit Types (d : list (Z * V)) (k : Z) (v : V).

Lemma dict_set_fresh k v d :
  ~ In k (dict_keys d) -> dict_set Z.eqb k v d = d ++ [(k, v)].
Proof.
  induction d as [|[k' v'] r IH]; simpl; intros H; [reflexivity|].
  destruct (Z.eqb_spec k k') as [->|_]; [tauto|].
  rewrite IH; tauto.
Qed.

Lemma dict_set_keys k v d :
  dict_keys (dict_set Z.eqb k v d)
  = if memZ k (dict_keys d) then dict_keys d else dict_keys d ++ [k].
Proof.
  induction d as [|[k' v'] r IH]; simpl; [reflexivity|].
  destruct (Z.eqb_spec k k') as [->|_]; simpl; [reflexivity|].
  unfold dict_keys in *. rewrite IH.
  now destruct (memZ k (map fst r)).
Qed.

Lemma dict_set_In k v d (x : Z * V) :
  In x (dict_set Z.eqb k v d) -> x = (k, v) \/ In x d.
Proof.
  induction d as [|[k' v'] r IH]; simpl; [intuition auto|].
  destruct (Z.eqb_spec k k') as [->|_]; simpl; intuition auto.
Qed.

Lemma dict_del_In k d d' (x : Z * V) :
  dict_del Z.eqb k d = Ok d' -> In x d' -> In x d.
Proof.
  revert d'. induction d as [|[k' v'] r IH]; simpl; intros d' H; [discriminate|].
  destruct (Z.eqb k k'); [inversion H; subst; auto|].
  destruct (dict_del Z.eqb k r) as [r'|]; simpl in H; [|discriminate].
  inversion H; subst. simpl. intros [<-|Hx]; [auto|right; eapply IH; eauto].
Qed.

Lemma dict_del_keys_NoDup k d d' :
  dict_del Z.eqb k d = Ok d' -> NoDup (dict_keys d) -> NoDup (dict_keys d').
Proof.
  revert d'. induction d as [|[k' v'] r IH]; simpl; intros d' H Hd; [discriminate|].
  inversion Hd as [|? ? Hk Hr]; subst.
  destruct (Z.eqb k k'); [inversion H; subst; auto|].
  destruct (dict_del Z.eqb k r) as [r'|] eqn:E; simpl in H; [|discriminate].
  inversion H; subst. simpl. constructor; [|eapply IH; eauto].
  intros Hin. apply Hk. unfold dict_keys in *.
  apply in_map_iff in Hin as (x & Ex & Hx). apply in_map_iff. exists x.
  split; [exact Ex|]. eapply dict_del_In; eauto.
Qed.

Lemma dict_del_raises k d e :
  dict_del Z.eqb k d = Raise e -> e = KeyError.
Proof.
  induction d as [|[k' v'] r IH]; simpl; [congruence|].
  destruct (Z.eqb k k'); [discriminate|].
  destruct (dict_del Z.eqb k r); simpl; [discriminate|].
  intros H. inversion H; subst. now apply IH.
Qed.

Lemma dict_del_present k d :
  NoDup (dict_keys d) -> In k (dict_keys d) ->
  dict_del Z.eqb k d = Ok (filter (fun kv => negb (k =? fst kv)) d).
Proof.
  unfold dict_keys.
  induction d as [|[k' v'] r IH]; simpl; intros Hd Hk; [tauto|].
  inversion Hd as [|? ? Hk' Hr]; subst.
  destruct (Z.eqb_spec k k') as [->|Hne]; simpl.
  - f_equal. symmetry. apply filter_all. intros [k v] Hin. simpl.
    destruct (Z.eqb_spec k' k) as [->|]; [|reflexivity].
    exfalso. apply Hk'. apply in_map_iff. now exists (k, v).
  - destruct Hk as [->|Hk]; [congruence|]. now rewrite IH.
Qed.
End DictFacts.

Lemma del_many_In ks d d' (x : Z * snapshot) :
  del_many ks d = Ok d' -> In x d' -> In x d.
Proof.
  revert d. induction ks as [|k r IH]; simpl; intros d H Hx.
  - now inversion H; subst.
  - destruct (dict_del Z.eqb k d) as [d1|] eqn:E; simpl in H; [|discriminate].
    eapply dict_del_In; eauto.
Qed.

Lemma del_many_keys_NoDup ks d d' :
  del_many ks d = Ok d' -> NoDup (dict_keys d) -> NoDup (dict_keys d').
Proof.
  revert d. induction ks as [|k r IH]; simpl; intros d H Hd.
  - now inversion H; subst.
  - destruct (dict_del Z.eqb k d) as [d1|] eqn:E; simpl in H; [|discriminate].
    eapply IH; eauto. eapply dict_del_keys_NoDup; eauto.
Qed.

Lemma del_many_raises ks d e : del_many ks d = Raise e -> e = KeyError.
Proof.
  revert d. induction ks as [|k r IH]; simpl; intros d H; [discriminate|].
  destruct (dict_del Z.eqb k d) as [d1|] eqn:E; simpl in H.
  - eapply IH; eauto.
  - inversion H; subst. eapply dict_del_raises; eauto.
Qed.

Lemma del_many_app ks1 ks2 d :
  del_many (ks1 ++ ks2) d = (d' <- del_many ks1 d ;; del_many ks2 d').
Proof.
  revert d. induction ks1 as [|k r IH]; simpl; intros d; [reflexivity|].
  destruct (dict_del Z.eqb k d); simpl; [apply IH|reflexivity].
Qed.

Lemma del_many_present ks d :
  NoDup ks -> incl ks (dict_keys d) -> NoDup (dict_keys d) ->
  del_many ks d = Ok (filter (fun kv => negb (memZ (fst kv) ks)) d).
Proof.
  revert d. induction ks as [|k r IH]; simpl; intros d Hks Hin Hd.
  - f_equal. symmetry. now apply filter_all.
  - inversion Hks as [|? ? Hk Hr]; subst.
    rewrite dict_del_present by (auto; apply Hin; now left). simpl.
    rewrite IH; auto.
    + f_equal. rewrite filter_filter. apply filter_ext. intros [k' v]. simpl.
      rewrite (Z.eqb_sym k' k). now destruct (k =? k'), (memZ k' r).
    + intros x Hx. unfold dict_keys. rewrite <- filter_map_comm with (p := fun y => negb (k =? y)).
      apply filter_In. split; [apply Hin; now right|].
      destruct (Z.eqb_spec k x) as [->|]; [tauto|reflexivity].
    + unfold dict_keys. now apply filter_keeps_distinct.
Qed.

(** The index of a list with unique identifiers is the list itself. *)
Lemma index_by_id_unique (l : list snapshot) :
  unique_ids l -> index_by_id l = map (fun s => (id s, s)) l.
Proof.
  unfold index_by_id, unique_ids.
  enough (H : forall acc, NoDup (dict_keys acc ++ map id l) ->
            fold_left (fun d s => dict_set Z.eqb (id s) s d) l acc
            = acc ++ map (fun s => (id s, s)) l) by (intros; now apply (H [])).
  induction l as [|s r IH]; simpl; intros acc H; [now rewrite app_nil_r|].
  rewrite dict_set_fresh.
  - rewrite IH; [now rewrite <- app_assoc|].
    unfold dict_keys in *. now rewrite map_app, <- app_assoc.
  - apply NoDup_remove_2 in H. intros Hin. apply H. apply in_or_app. now left.
Qed.

(** In general its keys are unique, each key is the identifier of its
    value, and each value comes from the list. *)
Lemma index_by_id_wf (l : list snapshot) :
  NoDup (dict_keys (index_by_id l)) /\
  forall k s, In (k, s) (index_by_id l) -> k = id s /\ In s l.
Proof.
  unfold index_by_id.
  enough (H : forall acc, NoDup (dict_keys acc) ->
            NoDup (dict_keys (fold_left (fun d s => dict_set Z.eqb (id s) s d) l acc)) /\
            forall k s, In (k, s) (fold_left (fun d s => dict_set Z.eqb (id s) s d) l acc) ->
                        In (k, s) acc \/ (k = id s /\ In s l)).
  { destruct (H [] (NoDup_nil _)) as [H1 H2]. split; [exact H1|].
    intros k s Hin. destruct (H2 k s Hin) as [[]|]; auto. }
  induction l as [|s r IH]; simpl; intros acc Hacc; [auto|].
  destruct (IH (dict_set Z.eqb (id s) s acc)) as [H1 H2].
  - rewrite dict_set_keys. destruct (memZ (id s) (dict_keys acc)) eqn:E; [exact Hacc|].
    apply memZ_not_In in E. apply NoDup_app; [exact Hacc|repeat constructor; simpl; tauto|].
    intros x Hx [<-|[]]. tauto.
  - split; [exact H1|]. intros k s' Hin.
    destruct (H2 k s' Hin) as [Hs|[-> Hs]]; [|auto].
    apply dict_set_In in Hs as [E|Hs]; [|auto]. inversion E; subst. auto.
Qed.

(* ================================================================== *)
(** * Facts about the thinning loops *)

Lemma delete_requests_app (a : args) (i j : list Z) (w : world) :
  delete_requests a (i ++ j) w = delete_requests a j (delete_requests a i w).
Proof. apply fold_left_app. Qed.

Lemma delete_requests_dryrun (a : args) (i : list Z) (w : world) :
  dryrun a = true -> delete_requests a i w = w.
Proof.
  intros H. revert w. induction i as [|x r IH]; intros w; [reflexivity|].
  unfold delete_requests in *. simpl. rewrite IH. unfold api. now rewrite H.
Qed.

(** On annotated snapshots the loop over a group deletes the identifiers
    of [doomed], in that order, and sends one request for each. *)
Lemma thin_group_spec (a : args) (interval : Z) (group : list snapshot) :
  Forall annotated group ->
  forall last_kept by_id w,
    thin_group a interval group last_kept by_id w
    = (d <- del_many (map id (doomed interval last_kept group)) by_id ;;
       Ok (d, delete_requests a (map id (doomed interval last_kept group)) w)).
Proof.
  induction 1 as [|s rest Hs Hrest IH]; intros last_kept by_id w; simpl;
    [reflexivity|].
  assert (E : (if interval =? 0 then Ok true
               else match last_kept with
                    | None => Ok false
                    | Some lk => dt <- field (created_dt s) ;; Ok (dt - lk <? interval)
                    end) = Ok (too_close interval last_kept s)).
  { unfold too_close. rewrite Hs.
    destruct (interval =? 0); [reflexivity|]. now destruct last_kept. }
  rewrite E. simpl. destruct (too_close interval last_kept s); simpl.
  - destruct (dict_del Z.eqb (id s) by_id); simpl; [apply IH|reflexivity].
  - rewrite Hs. simpl. apply IH.
Qed.

Lemma thin_all_spec (a : args) (groups : list (policy * list snapshot)) :
  Forall (fun g => Forall annotated (snd g)) groups ->
  forall by_id w,
    thin_all a groups by_id w
    = (d <- del_many (map id (doomed_all groups)) by_id ;;
       Ok (d, delete_requests a (map id (doomed_all groups)) w)).
Proof.
  induction 1 as [|[[interval ag] group] rest Hg Hrest IH]; intros by_id w; simpl;
    [reflexivity|].
  rewrite thin_group_spec by exact Hg.
  rewrite map_app, del_many_app, delete_requests_app.
  destruct (del_many (map id (doomed interval None group)) by_id); simpl;
    [apply IH|reflexivity].
Qed.

Lemma doomed_incl (interval : Z) (group : list snapshot) :
  forall last_kept x, In x (doomed interval last_kept group) -> In x group.
Proof.
  induction group as [|s rest IH]; simpl; intros last_kept x; [tauto|].
  destruct (too_close interval last_kept s); simpl; intuition eauto.
Qed.

Lemma kept_incl (interval : Z) (group : list snapshot) :
  forall last_kept x, In x (kept interval last_kept group) -> In x group.
Proof.
  induction group as [|s rest IH]; simpl; intros last_kept x; [tauto|].
  destruct (too_close interval last_kept s); simpl; intuition eauto.
Qed.

(** With unique identifiers, what is kept is what is not deleted. *)
Lemma kept_filter (interval : Z) (group : list snapshot) :
  unique_ids group ->
  forall last_kept,
    filter (fun s => negb (memZ (id s) (map id (doomed interval last_kept group)))) group
    = kept interval last_kept group.
Proof.
  unfold unique_ids.
  induction group as [|s rest IH]; simpl; intros H last_kept; [reflexivity|].
  inversion H as [|? ? Hs Hrest]; subst.
  destruct (too_close interval last_kept s); simpl.
  - rewrite Z.eqb_refl. simpl. rewrite <- (IH Hrest last_kept).
    apply filter_ext_in. intros x Hx.
    destruct (Z.eqb_spec (id x) (id s)) as [E|]; [|reflexivity].
    exfalso. apply Hs. rewrite <- E. now apply in_map.
  - assert (E : memZ (id s) (map id (doomed interval (Some (created_at s)) rest)) = false).
    { apply memZ_not_In. intros Hin. apply Hs.
      apply in_map_iff in Hin as (x & Ex & Hx). rewrite <- Ex.
      apply in_map. eapply doomed_incl; eauto. }
    rewrite E. simpl. f_equal. now apply IH.
Qed.

(** Thinning what thinning has kept keeps all of it. *)
Lemma kept_kept (interval : Z) (group : list snapshot) :
  forall last_kept,
    kept interval last_kept (kept interval last_kept group)
    = kept interval last_kept group.
Proof.
  induction group as [|s rest IH]; simpl; intros last_kept; [reflexivity|].
  destruct (too_close interval last_kept s) eqn:E; simpl; [apply IH|].
  rewrite E. f_equal. apply IH.
Qed.

Lemma kept_zero (group : list snapshot) :
  forall last_kept, kept 0 last_kept group = [].
Proof.
  induction group as [|s rest IH]; simpl; intros last_kept; [reflexivity|apply IH].
Qed.

Lemma kept_spaced (interval : Z) (group : list snapshot) :
  forall last_kept, spaced interval last_kept (kept interval last_kept group).
Proof.
  induction group as [|s rest IH]; simpl; intros last_kept; [exact I|].
  destruct (too_close interval last_kept s) eqn:E; simpl; [apply IH|].
  split; [|apply IH]. unfold too_close in E.
  apply orb_false_iff in E as [_ E]. destruct last_kept as [lk|]; [|exact I].
  apply Z.ltb_ge in E. exact E.
Qed.

Lemma spaced_consecutive (interval : Z) (pre post : list snapshot) (x y : snapshot) :
  forall last_kept,
    spaced interval last_kept (pre ++ x :: y :: post) ->
    interval <= created_at y - created_at x.
Proof.
  induction pre as [|z pre IH]; simpl; intros last_kept H.
  - tauto.
  - destruct H as [_ H]. eapply IH; eauto.
Qed.

(* ================================================================== *)
(** * Facts about the grouping loop *)

Lemma policy_eqb_eq (p q : policy) : policy_eqb p q = true <-> p = q.
Proof.
  destruct p as [a b], q as [c d]. unfold policy_eqb. simpl.
  rewrite andb_true_iff, !Z.eqb_eq. split; [intros []; congruence|].
  intros E; inversion E; auto.
Qed.

Lemma policy_eqb_refl (p : policy) : policy_eqb p p = true.
Proof. now apply policy_eqb_eq. Qed.

Lemma in_tier_iff (policies : list policy) (now : Z) (k : policy) (s : snapshot) :
  in_tier policies now k s = true <-> tier_of policies now s = Some k.
Proof.
  unfold in_tier. destruct (tier_of policies now s) as [q|].
  - rewrite policy_eqb_eq. split; congruence.
  - split; discriminate.
Qed.

Lemma tier_of_annotate (policies : list policy) (now now' : Z) (s : snapshot) :
  tier_of policies now (annotate now' s) = tier_of policies now s.
Proof. reflexivity. Qed.

(** The first policy met is in the list, its age is reached, and no
    policy before it has its age reached. *)
Lemma first_policy_spec (policies : list policy) (a : Z) (k : policy) :
  first_policy policies a = Some k <->
  exists pre post, policies = pre ++ k :: post /\ snd k <= a /\
                   forall q, In q pre -> a < snd q.
Proof.
  induction policies as [|[i g] rest IH]; simpl.
  - split; [discriminate|]. intros (pre & post & E & _). now destruct pre.
  - destruct (Z.leb_spec g a) as [Hg|Hg].
    + split.
      * intros E. inversion E; subst. exists [], rest. simpl. intuition.
      * intros (pre & post & E & Hk & Hpre). destruct pre as [|q pre]; simpl in E.
        -- inversion E; subst. reflexivity.
        -- inversion E; subst. specialize (Hpre (i, g) (or_introl eq_refl)).
           simpl in Hpre. lia.
    + rewrite IH. split.
      * intros (pre & post & -> & Hk & Hpre). exists ((i, g) :: pre), post.
        simpl. intuition (subst; simpl; auto).
      * intros (pre & post & E & Hk & Hpre). destruct pre as [|q pre]; simpl in E.
        -- inversion E; subst. simpl in Hk. lia.
        -- inversion E; subst. exists pre, post.
           repeat split; auto. intros q' Hq'. apply Hpre. now right.
Qed.

Lemma first_policy_none (policies : list policy) (a : Z) :
  first_policy policies a = None <-> forall q, In q policies -> a < snd q.
Proof.
  induction policies as [|[i g] rest IH]; simpl; [intuition|].
  destruct (Z.leb_spec g a) as [Hg|Hg].
  - split; [discriminate|]. intros H. specialize (H (i, g) (or_introl eq_refl)).
    simpl in H. lia.
  - rewrite IH. split; intros H q; [intros [<-|Hq]; simpl; auto|auto].
Qed.

Section DictAppend.
Variable V : Type.
Implicit Types (d : list (policy * list V)) (k : policy) (v : V).

Lemma dict_append_keys k v d k' :
  In k' (map fst (dict_append policy_eqb k v d)) <-> k' = k \/ In k' (map fst d).
Proof.
  induction d as [|[q l] r IH]; simpl; [intuition|].
  destruct (policy_eqb k q) eqn:E; simpl.
  - apply policy_eqb_eq in E. subst. intuition.
  - rewrite IH. intuition.
Qed.

Lemma dict_append_NoDup k v d :
  NoDup (map fst d) -> NoDup (map fst (dict_append policy_eqb k v d)).
Proof.
  induction d as [|[q l] r IH]; simpl; intros H.
  - repeat constructor. simpl. tauto.
  - inversion H as [|? ? Hq Hr]; subst.
    destruct (policy_eqb k q) eqn:E; simpl; [now constructor|].
    constructor; [|auto]. rewrite dict_append_keys. intros [->|Hin]; [|tauto].
    now rewrite policy_eqb_refl in E.
Qed.

Lemma dict_append_In k v d k' l' :
  NoDup (map fst d) ->
  In (k', l') (dict_append policy_eqb k v d) ->
  (k' <> k /\ In (k', l') d) \/
  (k' = k /\ ((exists l, In (k, l) d /\ l' = l ++ [v]) \/
              (~ In k (map fst d) /\ l' = [v]))).
Proof.
  induction d as [|[q l] r IH]; simpl; intros Hd.
  - intros [E|[]]. inversion E; subst. right. intuition.
  - inversion Hd as [|? ? Hq Hr]; subst.
    destruct (policy_eqb k q) eqn:E; simpl.
    + apply policy_eqb_eq in E. subst q. intros [E|Hin].
      * inversion E; subst. right. split; [reflexivity|]. left. eauto.
      * left. split; [|auto]. intros ->. apply Hq.
        apply in_map_iff. now exists (k, l').
    + intros [E'|Hin].
      * inversion E'; subst. left. split; [|auto]. intros ->.
        now rewrite policy_eqb_refl in E.
      * destruct (IH Hr Hin) as [[Hne H]|[-> [(l0 & H & ->)|[Hk ->]]]].
        -- left. auto.
        -- right. split; [reflexivity|]. left. eauto.
        -- right. split; [reflexivity|]. right. split; [|reflexivity].
           intros [->|H]; [now rewrite policy_eqb_refl in E|tauto].
Qed.
End DictAppend.

Section Grouping.
Variable policies : list policy.
Variable now : Z.

Lemma classify_grouped (done : list snapshot) (groups : list (policy * list snapshot))
    (s : snapshot) :
  grouped policies now done groups ->
  classify policies now (done, groups) s
  = (done ++ [annotate now s], snd (classify policies now (done, groups) s)) /\
  grouped policies now (done ++ [annotate now s])
          (snd (classify policies now (done, groups) s)).
Proof.
  intros (Hnd & Hin & Hall). split; [reflexivity|].
  unfold classify. simpl.
  change {| id := id s; name := name s; created_at := created_at s;
            regions := regions s; created_dt := Some (created_at s);
            age := Some (now - created_at s) |} with (annotate now s).
  destruct (first_policy policies (now - created_at s)) as [p|] eqn:Ep.
  - assert (Ht : tier_of policies now (annotate now s) = Some p) by exact Ep.
    split; [now apply dict_append_NoDup|]. split.
    + intros k g Hg. rewrite filter_app. simpl.
      apply dict_append_In in Hg; [|exact Hnd].
      destruct Hg as [[Hne Hg]|[-> [(l & Hl & ->)|[Hk ->]]]].
      * destruct (Hin k g Hg) as [-> Hg']. split; [|exact Hg'].
        destruct (in_tier policies now k (annotate now s)) eqn:E;
          [|now rewrite app_nil_r].
        apply in_tier_iff in E. congruence.
      * destruct (Hin p l Hl) as [-> _].
        rewrite (proj2 (in_tier_iff policies now p (annotate now s)) Ht).
        split; [reflexivity|]. now destruct (filter (in_tier policies now p) done).
      * rewrite (proj2 (in_tier_iff policies now p (annotate now s)) Ht).
        split; [|discriminate].
        destruct (filter (in_tier policies now p) done) as [|x r] eqn:E;
          [reflexivity|].
        exfalso. apply Hk. assert (Hx : In x (filter (in_tier policies now p) done))
          by (rewrite E; now left).
        apply filter_In in Hx as [Hx Hx']. apply in_tier_iff in Hx'. eauto.
    + intros x k Hx Hk. apply dict_append_keys.
      apply in_app_or in Hx as [Hx|[<-|[]]]; [right; eauto|left; congruence].
  - assert (Ht : tier_of policies now (annotate now s) = None) by exact Ep.
    split; [exact Hnd|]. split.
    + intros k g Hg. destruct (Hin k g Hg) as [-> Hg']. split; [|exact Hg'].
      rewrite filter_app. simpl.
      destruct (in_tier policies now k (annotate now s)) eqn:E;
        [|now rewrite app_nil_r].
      apply in_tier_iff in E. congruence.
    + intros x k Hx Hk.
      apply in_app_or in Hx as [Hx|[<-|[]]]; [eauto|congruence].
Qed.

Lemma group_by_policy_spec (l : list snapshot) :
  exists groups,
    group_by_policy policies now l = (map (annotate now) l, groups) /\
    grouped policies now (map (annotate now) l) groups.
Proof.
  unfold group_by_policy.
  enough (H : forall done groups,
            grouped policies now done groups ->
            exists groups',
              fold_left (classify policies now) l (done, groups)
              = (done ++ map (annotate now) l, groups') /\
              grouped policies now (done ++ map (annotate now) l) groups').
  { apply (H [] []). split; [constructor|]. split; [intros ? ? []|intros ? ? []]. }
  induction l as [|s r IH]; simpl; intros done groups Hg.
  - exists groups. now rewrite app_nil_r.
  - destruct (classify_grouped s Hg) as [E Hg']. rewrite E.
    destruct (IH _ _ Hg') as (groups' & E' & Hg'').
    exists groups'. rewrite <- app_assoc in *. simpl in *. auto.
Qed.

Variable done : list snapshot.
Variable groups : list (policy * list snapshot).
Hypothesis Hgrouped : grouped policies now done groups.

Lemma doomed_all_In (x : snapshot) :
  In x (doomed_all groups) <->
  exists k, tier_of policies now x = Some k /\
            In x (doomed (fst k) None (filter (in_tier policies now k) done)).
Proof.
  destruct Hgrouped as (Hnd & Hin & Hall). unfold doomed_all.
  rewrite in_flat_map. split.
  - intros ([k g] & Hg & Hx). simpl in Hx. destruct (Hin k g Hg) as [-> _].
    exists k. split; [|exact Hx].
    apply doomed_incl in Hx. apply filter_In in Hx. now apply in_tier_iff.
  - intros (k & Hk & Hx). pose proof (doomed_incl _ _ _ _ Hx) as Hd.
    apply filter_In in Hd as [Hd _].
    specialize (Hall x k Hd Hk). apply in_map_iff in Hall as ([k' g] & E & Hg).
    simpl in E. subst k'. exists (k, g). split; [exact Hg|]. simpl.
    now destruct (Hin k g Hg) as [-> _].
Qed.

Lemma doomed_all_incl (x : snapshot) : In x (doomed_all groups) -> In x done.
Proof.
  intros H. apply doomed_all_In in H as (k & _ & H).
  apply doomed_incl in H. now apply filter_In in H.
Qed.

Hypothesis Hunique : unique_ids done.

Lemma doomed_all_id (s : snapshot) :
  In s done ->
  (In (id s) (map id (doomed_all groups)) <-> In s (doomed_all groups)).
Proof.
  intros Hs. split; [|apply in_map].
  intros H. apply in_map_iff in H as (x & E & Hx).
  assert (x = s) by (eapply NoDup_map_eq; eauto using doomed_all_incl).
  now subst.
Qed.

Lemma doomed_unique (interval : Z) (g : list snapshot) :
  unique_ids g -> forall last_kept, unique_ids (doomed interval last_kept g).
Proof.
  unfold unique_ids. induction g as [|s r IH]; simpl; intros H last_kept;
    [constructor|].
  inversion H as [|? ? Hs Hr]; subst.
  destruct (too_close interval last_kept s); simpl; [|auto].
  constructor; [|auto]. intros Hin. apply Hs.
  apply in_map_iff in Hin as (x & E & Hx). rewrite <- E. apply in_map.
  eapply doomed_incl; eauto.
Qed.

Lemma doomed_all_unique : unique_ids (doomed_all groups).
Proof.
  destruct Hgrouped as (Hnd & Hin & _).
  assert (Hsub : forall k g, In (k, g) groups -> In (k, g) groups) by auto.
  revert Hnd Hsub. generalize groups at 1 2 4.
  induction groups0 as [|[k g] gs IH]; simpl; intros Hnd Hsub; [constructor|].
  inversion Hnd as [|? ? Hk Hgs]; subst.
  unfold unique_ids, doomed_all in *. simpl. rewrite map_app.
  destruct (Hin k g (Hsub k g (or_introl eq_refl))) as [Eg _].
  apply NoDup_app.
  - apply doomed_unique. subst g. now apply filter_keeps_distinct.
  - apply IH; auto.
  - intros i Hi Hi'.
    apply in_map_iff in Hi as (x & <- & Hx).
    apply in_map_iff in Hi' as (y & E & Hy).
    apply in_flat_map in Hy as ([k' g'] & Hg' & Hy). simpl in Hy.
    destruct (Hin k' g' (Hsub k' g' (or_intror Hg'))) as [Eg' _].
    apply doomed_incl in Hx, Hy. subst g g'.
    apply filter_In in Hx as [Hx Hkx], Hy as [Hy Hky].
    assert (y = x) by (eapply NoDup_map_eq; eauto). subst y.
    apply in_tier_iff in Hkx, Hky. apply Hk.
    apply in_map_iff. exists (k', filter (in_tier policies now k') done).
    split; [simpl; congruence|exact Hg'].
Qed.

(** Group by group, the snapshots not deleted are those the thinning
    of the group keeps. *)
Lemma survivors_of_tier (k : policy) :
  filter (in_tier policies now k)
         (filter (fun s => negb (memZ (id s) (map id (doomed_all groups)))) done)
  = kept (fst k) None (filter (in_tier policies now k) done).
Proof.
  assert (Hg : unique_ids (filter (in_tier policies now k) done))
    by (now apply filter_keeps_distinct).
  rewrite <- (@kept_filter (fst k) _ Hg None).
  rewrite !filter_filter. apply filter_ext_in. intros s Hs.
  destruct (in_tier policies now k s) eqn:Ek; simpl; [|now rewrite andb_false_r].
  rewrite andb_true_r. f_equal. apply eq_true_iff_eq.
  rewrite !memZ_In, doomed_all_id by exact Hs.
  apply in_tier_iff in Ek. rewrite doomed_all_In. split.
  - intros (k' & Hk' & Hx). assert (k' = k) by congruence. subst k'.
    now apply in_map.
  - intros H. apply in_map_iff in H as (x & E & Hx). exists k.
    split; [exact Ek|].
    assert (x = s); [|now subst].
    pose proof (doomed_incl _ _ _ _ Hx) as Hx'. apply filter_In in Hx' as [Hx' _].
    exact (@NoDup_map_eq _ _ id done x s Hunique Hx' Hs E).
Qed.
End Grouping.

(* ================================================================== *)
(** * The retention pass in closed form *)

Lemma annotate_idem (now : Z) (s : snapshot) :
  annotate now (annotate now s) = annotate now s.
Proof. reflexivity. Qed.

Lemma map_id_annotate (now : Z) (l : list snapshot) :
  map id (map (annotate now) l) = map id l.
Proof. rewrite map_map. now apply map_ext. Qed.

Lemma unique_ids_perm (l m : list snapshot) :
  Permutation l m -> unique_ids l -> unique_ids m.
Proof.
  unfold unique_ids. intros P. apply Permutation_NoDup. now apply Permutation_map.
Qed.

Lemma unique_ids_prepared (now : Z) (l : list snapshot) :
  unique_ids l -> unique_ids (map (annotate now) (sort_by created_at l)).
Proof.
  intros H. unfold unique_ids. rewrite map_id_annotate.
  apply (unique_ids_perm (l := l)); [|exact H].
  symmetry. apply sort_by_perm.
Qed.

Lemma sorted_prepared (now : Z) (l : list snapshot) :
  sorted_by_created_at (map (annotate now) (sort_by created_at l)).
Proof.
  unfold sorted_by_created_at.
  rewrite <- sort_by_map by reflexivity. apply sort_by_sorted.
Qed.

Lemma grouped_annotated (policies : list policy) (now : Z) (l : list snapshot)
    (groups : list (policy * list snapshot)) :
  grouped policies now (map (annotate now) l) groups ->
  Forall (fun g => Forall annotated (snd g)) groups.
Proof.
  intros (_ & Hin & _). apply Forall_forall. intros [k g] Hg. simpl.
  destruct (Hin k g Hg) as [-> _]. apply Forall_forall. intros x Hx.
  apply filter_In in Hx as [Hx _]. apply in_map_iff in Hx as (y & <- & _).
  reflexivity.
Qed.

(** With unique identifiers the call never raises; the list is left
    sorted and annotated, the survivors are its snapshots that no
    thinning loop deleted, in the same order, and one request is sent for
    each deletion. *)
Lemma engine_spec (a : args) (snapshots : list snapshot) (policies : list policy)
    (now : Z) (w : world) :
  unique_ids snapshots ->
  apply_retention_policies a snapshots policies now w
  = Ok (map (annotate now) (sort_by created_at snapshots),
        filter (survives policies now (sort_by created_at snapshots))
               (map (annotate now) (sort_by created_at snapshots)),
        delete_requests a
          (map id (doomed_all (snd (group_by_policy policies now
                                      (sort_by created_at snapshots))))) w).
Proof.
  intros Hu. unfold apply_retention_policies, survives.
  destruct (group_by_policy_spec policies now (sort_by created_at snapshots))
    as (groups & E & Hg).
  rewrite E. simpl snd.
  rewrite thin_all_spec by (eapply grouped_annotated; eauto).
  pose proof (unique_ids_prepared now Hu) as Hu'.
  rewrite index_by_id_unique by exact Hu.
  rewrite del_many_present.
  - simpl. f_equal. f_equal. f_equal.
    unfold dict_values.
    rewrite (filter_map_comm (fun s => (id s, s))
               (fun kv => negb (memZ (fst kv) (map id (doomed_all groups))))).
    rewrite (map_map (fun s => (id s, s)) snd). simpl. rewrite map_id.
    rewrite <- (sort_by_map created_at (annotate now)) by reflexivity.
    rewrite <- sort_by_filter. f_equal.
    now rewrite filter_map_comm.
  - apply (doomed_all_unique Hg Hu').
  - intros i Hi. apply in_map_iff in Hi as (x & <- & Hx).
    apply (doomed_all_incl Hg) in Hx.
    unfold dict_keys. rewrite map_map. simpl.
    apply (in_map id) in Hx. rewrite map_id_annotate in Hx.
    eapply Permutation_in; [|exact Hx]. apply Permutation_map, sort_by_perm.
  - unfold dict_keys. rewrite map_map. exact Hu.
Qed.

Lemma map_fixed (A : Type) (f : A -> A) (l : list A) :
  (forall x, In x l -> f x = x) -> map f l = l.
Proof.
  induction l as [|x r IH]; simpl; intros H; [reflexivity|].
  rewrite (H x (or_introl eq_refl)), IH; auto.
Qed.

Lemma no_element (A : Type) (l : list A) : (forall x, ~ In x l) -> l = [].
Proof.
  destruct l as [|x r]; [reflexivity|]. intros H.
  destruct (H x (or_introl eq_refl)).
Qed.

Lemma doomed_kept (interval : Z) (group : list snapshot) :
  forall last_kept, doomed interval last_kept (kept interval last_kept group) = [].
Proof.
  induction group as [|s rest IH]; simpl; intros last_kept; [reflexivity|].
  destruct (too_close interval last_kept s) eqn:E; simpl; [apply IH|].
  rewrite E. apply IH.
Qed.

(** The call in general, whether or not identifiers repeat: when it
    returns, the list is left sorted and annotated and every survivor is
    an annotated snapshot of the list; survivors have distinct
    identifiers and are in order. It raises nothing but [KeyError]. *)
Lemma engine_returns (a : args) (snapshots : list snapshot) (policies : list policy)
    (now : Z) (w : world) (l' survivors : list snapshot) (w' : world) :
  apply_retention_policies a snapshots policies now w = Ok (l', survivors, w') ->
  l' = map (annotate now) (sort_by created_at snapshots) /\
  (forall s, In s survivors -> exists s0, In s0 snapshots /\ s = annotate now s0) /\
  unique_ids survivors /\
  sorted_by_created_at survivors.
Proof.
  unfold apply_retention_policies.
  destruct (group_by_policy_spec policies now (sort_by created_at snapshots))
    as (groups & E & Hg).
  rewrite E, thin_all_spec by (eapply grouped_annotated; eauto).
  destruct (del_many (map id (doomed_all groups)) (index_by_id snapshots))
    as [d|] eqn:Ed; simpl; [|discriminate].
  intros H. inversion H; subst. clear H.
  destruct (index_by_id_wf snapshots) as [Hnd Hwf].
  assert (Hd : forall k s, In (k, s) d -> k = id s /\ In s snapshots).
  { intros k s Hks. apply Hwf. eapply del_many_In; eauto. }
  split; [reflexivity|]. split; [|split].
  - intros s Hs. apply in_sort_by in Hs. apply in_map_iff in Hs as (s0 & <- & Hs0).
    exists s0. split; [|reflexivity].
    apply in_map_iff in Hs0 as ([k v] & <- & Hkv). now apply Hd in Hkv.
  - apply (unique_ids_perm (l := map (annotate now) (dict_values d)));
      [symmetry; apply sort_by_perm|].
    unfold unique_ids. rewrite map_id_annotate. unfold dict_values.
    rewrite map_map.
    rewrite (map_ext_in (fun x => id (snd x)) fst).
    + eapply del_many_keys_NoDup; eauto.
    + intros [k v] Hkv. simpl. symmetry. now apply Hd in Hkv.
  - apply sort_by_sorted.
Qed.

Lemma engine_raises (a : args) (snapshots : list snapshot) (policies : list policy)
    (now : Z) (w : world) (e : exn) :
  apply_retention_policies a snapshots policies now w = Raise e ->
  e = KeyError /\ ~ unique_ids snapshots.
Proof.
  intros H. split.
  - revert H. unfold apply_retention_policies.
    destruct (group_by_policy_spec policies now (sort_by created_at snapshots))
      as (groups & E & Hg).
    rewrite E, thin_all_spec by (eapply grouped_annotated; eauto).
    destruct (del_many (map id (doomed_all groups)) (index_by_id snapshots))
      as [d|] eqn:Ed; simpl; [discriminate|].
    intros H. inversion H; subst. eapply del_many_raises; eauto.
  - intros Hu. rewrite engine_spec in H by exact Hu. discriminate.
Qed.

Section Survivors.
Variable policies : list policy.
Variable now : Z.
Variable snapshots : list snapshot.
Hypothesis Hu : unique_ids snapshots.

Let l := sort_by created_at snapshots.
Let l' := map (annotate now) l.
Let survivors := filter (survives policies now l) l'.

Lemma survivors_unique : unique_ids survivors.
Proof. apply filter_keeps_distinct. now apply unique_ids_prepared. Qed.

Lemma survivors_sorted : sorted_by_created_at survivors.
Proof.
  apply (sorted_filter created_at). apply sorted_prepared.
Qed.

Lemma survivors_annotated : map (annotate now) survivors = survivors.
Proof.
  apply map_fixed. intros x Hx. apply filter_In in Hx as [Hx _].
  apply in_map_iff in Hx as (y & <- & _). reflexivity.
Qed.

(** The survivors assigned to a policy are what thinning keeps of the
    snapshots assigned to it. *)
Lemma survivors_in_tier (k : policy) :
  filter (in_tier policies now k) survivors
  = kept (fst k) None (filter (in_tier policies now k) l').
Proof.
  unfold survivors, survives.
  destruct (group_by_policy_spec policies now l) as (groups & E & Hg).
  rewrite E. simpl snd.
  apply (survivors_of_tier Hg). now apply unique_ids_prepared.
Qed.

(** A snapshot assigned to no policy survives. *)
Lemma exempt_survives (s : snapshot) :
  In s l' -> tier_of policies now s = None -> In s survivors.
Proof.
  intros Hs Ht. apply filter_In. split; [exact Hs|].
  unfold survives.
  destruct (group_by_policy_spec policies now l) as (groups & E & Hg).
  rewrite E. simpl snd. apply negb_true_iff, memZ_not_In.
  rewrite (doomed_all_id Hg) by (auto; now apply unique_ids_prepared).
  rewrite (doomed_all_In Hg). intros (k & Hk & _). congruence.
Qed.

(** A snapshot of the list that does not survive was assigned to a
    policy. *)
Lemma deleted_in_tier (s : snapshot) :
  In s l' -> ~ In s survivors -> exists k, tier_of policies now s = Some k.
Proof.
  intros Hs Hn. destruct (tier_of policies now s) as [k|] eqn:E; [eauto|].
  destruct Hn. now apply exempt_survives.
Qed.
End Survivors.

(** A second pass over the survivors, at the same reference time, finds
    nothing to delete. *)
Lemma second_pass_deletes_nothing (policies : list policy) (now : Z)
    (snapshots : list snapshot) :
  unique_ids snapshots ->
  doomed_all
    (snd (group_by_policy policies now
            (filter (survives policies now (sort_by created_at snapshots))
                    (map (annotate now) (sort_by created_at snapshots)))))
  = [].
Proof.
  intros Hu.
  set (survivors := filter (survives policies now (sort_by created_at snapshots))
                           (map (annotate now) (sort_by created_at snapshots))).
  destruct (group_by_policy_spec policies now survivors) as (groups & E & Hg).
  rewrite E. simpl snd.
  unfold survivors in Hg. rewrite (survivors_annotated policies now snapshots) in Hg.
  apply no_element. intros x Hx.
  apply (doomed_all_In Hg) in Hx as (k & _ & Hx).
  rewrite (survivors_in_tier policies now Hu), doomed_kept in Hx. exact Hx.
Qed.

(* ================================================================== *)
(** * Properties of the retention engine *)

(** C2. Idempotence. For every list of snapshots (with the unique
    identifiers of the data model), every list of policies, sorted or
    not, and every reference time, the retention pass returns, and a
    second pass over its survivors with the same policies and the same
    reference time returns exactly those survivors, leaves that list as
    it is and sends no request. *)
Theorem apply_retention_idempotent (a : args) (snapshots : list snapshot)
    (policies : list policy) (now : Z) (w : world) :
  unique_ids snapshots ->
  exists l' survivors w',
    apply_retention_policies a snapshots policies now w = Ok (l', survivors, w') /\
    apply_retention_policies a survivors policies now w' = Ok (survivors, survivors, w').
Proof.
  intros Hu.
  exists (map (annotate now) (sort_by created_at snapshots)).
  exists (filter (survives policies now (sort_by created_at snapshots))
                 (map (annotate now) (sort_by created_at snapshots))).
  eexists. split; [now apply engine_spec|].
  set (survivors := filter (survives policies now (sort_by created_at snapshots))
                           (map (annotate now) (sort_by created_at snapshots))).
  assert (E1 : sort_by created_at survivors = survivors)
    by apply (sort_by_fixed created_at (survivors_sorted policies now snapshots)).
  assert (E2 : map (annotate now) survivors = survivors)
    by apply survivors_annotated.
  assert (E3 : doomed_all (snd (group_by_policy policies now survivors)) = [])
    by apply (second_pass_deletes_nothing policies now Hu).
  rewrite engine_spec by apply (survivors_unique policies now Hu).
  rewrite E1, E2, E3. simpl. do 3 f_equal.
  apply filter_all. intros s _. unfold survives. now rewrite E3.
Qed.

Lemma apply_retention_idempotent_witness :
  exists l' survivors w',
    apply_retention_policies live
      [snap 3 (days 2); snap 1 (days 0); snap 4 (days 9); snap 2 (days 1)]
      [(days 5, days 7)] (days 10) [] = Ok (l', survivors, w') /\
    apply_retention_policies live survivors [(days 5, days 7)] (days 10) w'
    = Ok (survivors, survivors, w').
Proof.
  apply (@apply_retention_idempotent live
           [snap 3 (days 2); snap 1 (days 0); snap 4 (days 9); snap 2 (days 1)]
           [(days 5, days 7)] (days 10) []).
  unfold unique_ids. simpl.
  repeat (constructor; [simpl; intuition discriminate|]). constructor.
Defined.

(** C3. Spacing. In the output of the retention pass, two consecutive
    survivors assigned to the same policy are at least the policy's
    interval apart, and no survivor is assigned to a policy whose
    interval is zero. *)
Theorem thinning_spacing (a : args) (snapshots : list snapshot)
    (policies : list policy) (now : Z) (w : world) :
  unique_ids snapshots ->
  exists l' survivors w',
    apply_retention_policies a snapshots policies now w = Ok (l', survivors, w') /\
    (forall k pre x y post,
        filter (in_tier policies now k) survivors = pre ++ x :: y :: post ->
        fst k <= created_at y - created_at x) /\
    (forall k s, fst k = 0 -> In s survivors -> tier_of policies now s <> Some k).
Proof.
  intros Hu. do 3 eexists. split; [now apply engine_spec|]. split.
  - intros k pre x y post E.
    rewrite (survivors_in_tier policies now Hu) in E.
    eapply spaced_consecutive with (pre := pre) (post := post).
    rewrite <- E. apply kept_spaced.
  - intros k s Hk Hs Ht.
    assert (Hin : In s (filter (in_tier policies now k)
                          (filter (survives policies now (sort_by created_at snapshots))
                                  (map (annotate now) (sort_by created_at snapshots))))).
    { apply filter_In. split; [exact Hs|now apply in_tier_iff]. }
    rewrite (survivors_in_tier policies now Hu), Hk, kept_zero in Hin. exact Hin.
Qed.

Lemma thinning_spacing_witness :
  exists l' survivors w',
    apply_retention_policies live
      [snap 1 (days 0); snap 2 (days 1); snap 3 (days 6); snap 4 (days 20)]
      [(0, days 15); (days 5, days 1)] (days 21) [] = Ok (l', survivors, w') /\
    (forall k pre x y post,
        filter (in_tier [(0, days 15); (days 5, days 1)] (days 21) k) survivors
        = pre ++ x :: y :: post ->
        fst k <= created_at y - created_at x) /\
    (forall k s, fst k = 0 -> In s survivors ->
                 tier_of [(0, days 15); (days 5, days 1)] (days 21) s <> Some k).
Proof.
  apply (@thinning_spacing live
           [snap 1 (days 0); snap 2 (days 1); snap 3 (days 6); snap 4 (days 20)]
           [(0, days 15); (days 5, days 1)] (days 21) []).
  unique_ids_tac.
Defined.

Lemma descending_age_after (pre post : list policy) (k q : policy) :
  descending_age (pre ++ k :: post) -> In q post -> snd q <= snd k.
Proof.
  unfold descending_age. induction pre as [|p pre IH]; simpl; intros H Hq.
  - inversion H as [|? ? _ Hk]; subst. rewrite Forall_forall in Hk. now apply Hk.
  - inversion H; subst. auto.
Qed.

(** C4. Tier assignment. With the policies sorted by descending age,
    the group a snapshot is put in is that of the first policy whose age
    the snapshot's age reaches, and that policy has the largest age, among
    all policies, not above the snapshot's age; a snapshot whose age
    reaches no policy's age is put in no group and is among the
    survivors. *)
Theorem tier_assignment (a : args) (snapshots : list snapshot)
    (policies : list policy) (now : Z) (w : world) (s : snapshot) :
  descending_age policies ->
  unique_ids snapshots ->
  In s snapshots ->
  exists l' groups survivors w',
    group_by_policy policies now (sort_by created_at snapshots) = (l', groups) /\
    apply_retention_policies a snapshots policies now w = Ok (l', survivors, w') /\
    In (annotate now s) l' /\
    (forall k,
        (exists g, In (k, g) groups /\ In (annotate now s) g) <->
        (exists pre post, policies = pre ++ k :: post /\
                          snd k <= now - created_at s /\
                          forall q, In q pre -> now - created_at s < snd q)) /\
    (forall k g, In (k, g) groups -> In (annotate now s) g ->
                 In k policies /\ snd k <= now - created_at s /\
                 forall q, In q policies -> snd q <= now - created_at s ->
                           snd q <= snd k) /\
    ((forall q, In q policies -> now - created_at s < snd q) ->
     In (annotate now s) survivors /\
     forall k g, In (k, g) groups -> ~ In (annotate now s) g).
Proof.
  intros Hd Hu Hs.
  destruct (group_by_policy_spec policies now (sort_by created_at snapshots))
    as (groups & E & Hg).
  exists (map (annotate now) (sort_by created_at snapshots)), groups.
  do 2 eexists. split; [exact E|]. split; [now apply engine_spec|].
  assert (Hs' : In (annotate now s) (map (annotate now) (sort_by created_at snapshots)))
    by (apply in_map; now apply in_sort_by).
  split; [exact Hs'|].
  destruct Hg as (Hnd & Hin & Hall).
  assert (Hgroup : forall k, (exists g, In (k, g) groups /\ In (annotate now s) g) <->
                             tier_of policies now s = Some k).
  { intros k. split.
    - intros (g & Hg & Hsg). destruct (Hin k g Hg) as [-> _].
      apply filter_In in Hsg as [_ Hsg]. now apply in_tier_iff in Hsg.
    - intros Ht. pose proof (Hall _ _ Hs' Ht) as Hk.
      apply in_map_iff in Hk as ([k' g] & Ek & Hg). simpl in Ek. subst k'.
      exists g. split; [exact Hg|]. destruct (Hin k g Hg) as [-> _].
      apply filter_In. split; [exact Hs'|]. now apply in_tier_iff. }
  split; [|split].
  - intros k. rewrite Hgroup. apply first_policy_spec.
  - intros k g Hkg Hsg.
    assert (Ht : tier_of policies now s = Some k) by (apply Hgroup; eauto).
    apply first_policy_spec in Ht as (pre & post & Ep & Hk & Hpre).
    split; [subst; apply in_or_app; right; now left|]. split; [exact Hk|].
    intros q Hq Hqa. rewrite Ep in Hq.
    apply in_app_or in Hq as [Hq|[<-|Hq]].
    + specialize (Hpre q Hq). lia.
    + lia.
    + rewrite Ep in Hd. eapply descending_age_after; eauto.
  - intros Hnone. apply first_policy_none in Hnone. split.
    + apply (exempt_survives policies now Hu); [exact Hs'|exact Hnone].
    + intros k g Hkg Hsg.
      assert (Ht : tier_of policies now s = Some k) by (apply Hgroup; eauto).
      unfold tier_of in Ht. congruence.
Qed.

Lemma tier_assignment_witness :
  exists l' groups survivors w',
    group_by_policy [(days 30, days 30); (days 5, days 7)] (days 40)
      (sort_by created_at [snap 1 (days 0); snap 2 (days 30); snap 3 (days 38)])
    = (l', groups) /\
    apply_retention_policies live
      [snap 1 (days 0); snap 2 (days 30); snap 3 (days 38)]
      [(days 30, days 30); (days 5, days 7)] (days 40) [] = Ok (l', survivors, w') /\
    In (annotate (days 40) (snap 3 (days 38))) l' /\
    (forall k,
        (exists g, In (k, g) groups /\ In (annotate (days 40) (snap 3 (days 38))) g) <->
        (exists pre post, [(days 30, days 30); (days 5, days 7)] = pre ++ k :: post /\
                          snd k <= days 40 - created_at (snap 3 (days 38)) /\
                          forall q, In q pre -> days 40 - created_at (snap 3 (days 38)) < snd q)) /\
    (forall k g, In (k, g) groups -> In (annotate (days 40) (snap 3 (days 38))) g ->
                 In k [(days 30, days 30); (days 5, days 7)] /\
                 snd k <= days 40 - created_at (snap 3 (days 38)) /\
                 forall q, In q [(days 30, days 30); (days 5, days 7)] ->
                           snd q <= days 40 - created_at (snap 3 (days 38)) ->
                           snd q <= snd k) /\
    ((forall q, In q [(days 30, days 30); (days 5, days 7)] ->
                days 40 - created_at (snap 3 (days 38)) < snd q) ->
     In (annotate (days 40) (snap 3 (days 38))) survivors /\
     forall k g, In (k, g) groups -> ~ In (annotate (days 40) (snap 3 (days 38))) g).
Proof.
  apply (@tier_assignment live
           [snap 1 (days 0); snap 2 (days 30); snap 3 (days 38)]
           [(days 30, days 30); (days 5, days 7)] (days 40) []
           (snap 3 (days 38))).
  - unfold descending_age. repeat constructor. simpl. unfold days. lia.
  - unique_ids_tac.
  - simpl. auto.
Defined.

(** C9. Whatever the list, the policies and the reference time: when the
    retention pass returns, every survivor is a snapshot of the list the
    caller passed (as the pass leaves it, that is annotated), no
    identifier occurs twice among the survivors, and they are sorted by
    ascending creation time. The pass raises only when identifiers
    repeat in the input, and then [KeyError]. *)
Theorem survivors_subset_sorted (a : args) (snapshots : list snapshot)
    (policies : list policy) (now : Z) (w : world) :
  match apply_retention_policies a snapshots policies now w with
  | Ok (l', survivors, _) =>
      incl survivors l' /\
      (forall s, In s survivors -> exists s0, In s0 snapshots /\ s = annotate now s0) /\
      unique_ids survivors /\
      sorted_by_created_at survivors
  | Raise e => e = KeyError /\ ~ unique_ids snapshots
  end.
Proof.
  destruct (apply_retention_policies a snapshots policies now w)
    as [[[l' survivors] w']|e] eqn:E.
  - apply engine_returns in E as (-> & Hin & Hu & Hs).
    split; [|auto]. intros s Hs'. destruct (Hin s Hs') as (s0 & Hs0 & ->).
    apply in_map. now apply in_sort_by.
  - eapply engine_raises; eauto.
Qed.

Lemma survivors_subset_sorted_witness :
  incl [annotate (days 10) (snap 1 (days 0)); annotate (days 10) (snap 4 (days 9))]
       (map (annotate (days 10))
            [snap 1 (days 0); snap 2 (days 1); snap 3 (days 2); snap 4 (days 9)]) /\
  sorted_by_created_at
    [annotate (days 10) (snap 1 (days 0)); annotate (days 10) (snap 4 (days 9))].
Proof.
  pose proof (@survivors_subset_sorted live
                [snap 3 (days 2); snap 1 (days 0); snap 4 (days 9); snap 2 (days 1)]
                [(days 5, days 7)] (days 10) []) as H.
  cbn in H. destruct H as (H1 & _ & _ & H2). split; [exact H1|exact H2].
Defined.

(** The retention pass writes two keys on every snapshot of the list. *)
Lemma retention_stores_age :
  apply_retention_policies live [snap 1 (days 0)] [] (days 2) []
  = Ok ([annotate (days 2) (snap 1 (days 0))],
        [annotate (days 2) (snap 1 (days 0))], []) /\
  age (snap 1 (days 0)) = None /\
  age (annotate (days 2) (snap 1 (days 0))) = Some (days 2) /\
  ~ same_stored_fields (snap 1 (days 0)) (annotate (days 2) (snap 1 (days 0))).
Proof.
  repeat split; try reflexivity.
  intros (_ & _ & H). discriminate H.
Qed.

(* ================================================================== *)
(** * Properties of the region step *)

Lemma mem_string_In (x : string) (l : list string) :
  mem_string x l = true <-> In x l.
Proof.
  unfold mem_string. rewrite existsb_exists. split.
  - intros (y & Hy & E). apply String.eqb_eq in E. now subst.
  - intros H. exists x. split; [exact H|apply String.eqb_refl].
Qed.

Lemma set_order_nil (e : env) : env_ok e -> set_order e [] = [].
Proof.
  intros H. apply no_element. intros x Hx. now apply (H []) in Hx.
Qed.

Lemma ensure_snapshot_regions_spec (e : env) (a : args) (s : snapshot)
    (wanted : list string) (w : world) :
  ensure_snapshot_regions e a s wanted w
  = if dryrun a then w
    else w ++ map (TransferSnapshot (id s)) (missing_regions e s wanted).
Proof.
  unfold ensure_snapshot_regions. generalize (missing_regions e s wanted).
  intros m. revert w. induction m as [|r m IH]; simpl; intros w.
  - destruct (dryrun a); [reflexivity|now rewrite app_nil_r].
  - rewrite IH. unfold api. destruct (dryrun a); [reflexivity|].
    now rewrite <- app_assoc.
Qed.

Lemma sample_env_ok : env_ok sample_env.
Proof.
  intros l. split; [apply NoDup_nodup|]. intros x. apply nodup_In.
Qed.

(** C5. Region step twice. Running the region step of [process_droplet]
    (the transfer requests, then the update of the snapshot's regions)
    twice on a snapshot with the same wanted regions: the first run sends
    one transfer request for each missing region (none under [dryrun]);
    after it every wanted region is among the snapshot's regions, so
    that in the second run nothing is missing and no request is sent.
    Neither run can raise. *)
Theorem sync_regions_twice (e : env) (a : args) (s s1 s2 : snapshot)
    (w w1 w2 : world) :
  env_ok e ->
  sync_regions e a s w = (s1, w1) ->
  sync_regions e a s1 w1 = (s2, w2) ->
  w1 = (if dryrun a then w
        else w ++ map (TransferSnapshot (id s)) (missing_regions e s (region a))) /\
  (forall r, In r (region a) -> In r (regions s1)) /\
  missing_regions e s1 (region a) = [] /\
  w2 = w1.
Proof.
  intros He E1 E2. unfold sync_regions in *.
  rewrite ensure_snapshot_regions_spec in E1, E2.
  injection E1 as Es1 Ew1. injection E2 as _ Ew2.
  assert (Hall : forall r, In r (region a) -> In r (regions s1)).
  { intros r Hr. rewrite <- Es1. simpl. apply He. apply in_or_app. now right. }
  assert (Hmiss : missing_regions e s1 (region a) = []).
  { unfold missing_regions.
    replace (filter (fun r => negb (mem_string r (regions s1))) (region a))
      with (@nil string); [now apply set_order_nil|].
    symmetry. apply no_element. intros r Hr. apply filter_In in Hr as [Hr Hn].
    apply negb_true_iff in Hn.
    rewrite (proj2 (mem_string_In r (regions s1)) (Hall r Hr)) in Hn. discriminate. }
  split; [now symmetry|]. split; [exact Hall|]. split; [exact Hmiss|].
  rewrite Hmiss in Ew2. simpl in Ew2. rewrite app_nil_r in Ew2.
  now destruct (dryrun a).
Qed.

Lemma sync_regions_twice_witness :
  [TransferSnapshot 7 "sfo2"]
  = [] ++ map (TransferSnapshot 7)
              (missing_regions sample_env
                 {| id := 7; name := "web"; created_at := 0; regions := ["nyc1"];
                    created_dt := None; age := None |} ["nyc1"; "sfo2"]) /\
  (forall r, In r ["nyc1"; "sfo2"] -> In r ["nyc1"; "sfo2"]) /\
  missing_regions sample_env
    {| id := 7; name := "web"; created_at := 0; regions := ["nyc1"; "sfo2"];
       created_dt := None; age := None |} ["nyc1"; "sfo2"] = [] /\
  [TransferSnapshot 7 "sfo2"] = [TransferSnapshot 7 "sfo2"].
Proof.
  exact (@sync_regions_twice sample_env
           {| dryrun := false; region := ["nyc1"; "sfo2"] |}
           {| id := 7; name := "web"; created_at := 0; regions := ["nyc1"];
              created_dt := None; age := None |}
           _ _ [] _ _ sample_env_ok eq_refl eq_refl).
Defined.

(** C8 (amended). Frame of the retention pass. The pass leaves the
    caller's list sorted with, on every snapshot, [id], [name],
    [created_at] and [regions] as they were and two keys written:
    [created_dt], the creation time, and [age], the reference time minus
    the creation time; each survivor is such a snapshot of the list. The
    region step changes nothing but [regions], and every region present
    before it is present after it. *)
Theorem retention_frame (e : env) (a : args) (snapshots : list snapshot)
    (policies : list policy) (now : Z) (w : world) :
  (forall l' survivors w',
      apply_retention_policies a snapshots policies now w = Ok (l', survivors, w') ->
      l' = map (annotate now) (sort_by created_at snapshots) /\
      forall s, In s survivors ->
                exists s0, In s0 snapshots /\ same_identity s0 s /\
                           regions s = regions s0 /\
                           created_dt s = Some (created_at s0) /\
                           age s = Some (now - created_at s0)) /\
  (env_ok e ->
   forall s w, same_stored_fields s (fst (sync_regions e a s w)) /\
               incl (regions s) (regions (fst (sync_regions e a s w)))).
Proof.
  split.
  - intros l' survivors w' E. apply engine_returns in E as (-> & Hin & _).
    split; [reflexivity|]. intros s Hs. destruct (Hin s Hs) as (s0 & Hs0 & ->).
    exists s0. repeat split; auto.
  - intros He s w'. split; [repeat split|].
    intros r Hr. simpl. apply He. apply in_or_app. now left.
Qed.

Lemma retention_frame_witness :
  same_stored_fields (snap 1 (days 0))
    (fst (sync_regions sample_env {| dryrun := true; region := ["nyc1"] |}
            (snap 1 (days 0)) [])) /\
  incl (regions (snap 1 (days 0)))
    (regions (fst (sync_regions sample_env {| dryrun := true; region := ["nyc1"] |}
                     (snap 1 (days 0)) []))).
Proof.
  exact (proj2 (@retention_frame sample_env {| dryrun := true; region := ["nyc1"] |}
                  [] [] 0 []) sample_env_ok (snap 1 (days 0)) []).
Defined.

(* ================================================================== *)
(** * Properties of the parsers *)

Lemma str_split_length (sep : ascii) (s : string) :
  List.length (str_split sep s) = S (count_char sep s).
Proof.
  induction s as [|c r IH]; simpl; [reflexivity|].
  destruct (Ascii.eqb c sep); simpl; [now rewrite IH|].
  destruct (str_split sep r); simpl in *; [discriminate|exact IH].
Qed.

Lemma timedelta_raises (k : kwargs) (e : exn) :
  timedelta k = Raise e -> e = OverflowError.
Proof.
  unfold timedelta.
  destruct (_ && _)%bool; [discriminate|]. now intros [= <-].
Qed.

(** When [parse_interval] raises the [ValueError] of a bad duration. *)
Lemma parse_interval_invalid_duration (token : string) :
  (exists e, parse_interval token = Raise e /\ InvalidDurationError e) <->
  (exists c, last_char token = Some c /\
             (suffixmap c = None \/ py_int (but_last token) = None)).
Proof.
  unfold parse_interval, InvalidDurationError.
  destruct (last_char token) as [c|].
  - destruct (suffixmap c) as [f|] eqn:Ef.
    + destruct (py_int (but_last token)) as [x|] eqn:Ex.
      * split.
        -- intros (e & E & H). apply timedelta_raises in E. subst.
           destruct H as [H|[? H]]; discriminate H.
        -- intros (c' & [= <-] & [H|H]); congruence.
      * split; [eauto|]. intros _. eexists. split; [reflexivity|now left].
    + split; [eauto|]. intros _. eexists. split; [reflexivity|right; eauto].
  - split.
    + intros (e & [= <-] & [H|[? H]]); discriminate H.
    + intros (c & H & _). discriminate H.
Qed.

Lemma parse_interval_not_form (token : string) (m : message) :
  m = KeepForm \/ m = SimulateForm -> parse_interval token <> Raise (ValueError m).
Proof.
  intros Hm. unfold parse_interval.
  destruct (last_char token); [|discriminate].
  destruct (suffixmap a); [|destruct Hm; subst; discriminate].
  destruct (py_int (but_last token)); [|destruct Hm; subst; discriminate].
  intros E. apply timedelta_raises in E. discriminate.
Qed.

(** X4. A retention token raises the [ValueError] of a bad policy
    exactly when it does not hold exactly one separator. *)
Lemma parse_pair_invalid_policy (token : string) :
  (exists e, parse_pair KeepForm token = Raise e /\ InvalidPolicyError e) <->
  count_char ":"%char token <> 1%nat.
Proof.
  unfold parse_pair, InvalidPolicyError.
  pose proof (str_split_length ":"%char token) as Hl.
  destruct (str_split ":"%char token) as [|x [|y [|z r]]]; simpl in Hl.
  - discriminate.
  - split; [intros _; lia|]. eauto.
  - split.
    + intros (e & E & ->). exfalso.
      destruct (parse_interval x) as [i|e1] eqn:Ex; simpl in E.
      * destruct (parse_interval y) as [j|e2] eqn:Ey; simpl in E; [discriminate|].
        inversion E; subst. apply (@parse_interval_not_form y KeepForm); auto.
      * inversion E; subst. apply (@parse_interval_not_form x KeepForm); auto.
    + intros H. lia.
  - split; [intros _; lia|]. eauto.
Qed.

Lemma parse_pair_invalid_policy_witness :
  exists e, parse_pair KeepForm "1w" = Raise e /\ InvalidPolicyError e.
Proof.
  apply (proj2 (parse_pair_invalid_policy "1w")). discriminate.
Defined.

(** C7. The empty duration token. It has no unit and no magnitude, yet
    [parse_interval] does not raise the [ValueError] of a bad duration on
    it: the subscript [interval[-1]] raises [IndexError], which neither
    handler of [parse_interval] catches. A retention token with exactly
    one separator and an empty half, and the [--snapshot] age when
    empty, fail in the same way. *)
Theorem parse_interval_empty_token :
  parse_interval "" = Raise IndexError /\
  ~ InvalidDurationError IndexError /\
  last_char "" = None /\ py_int (but_last "") = None /\
  parse_pair KeepForm ":30d" = Raise IndexError /\
  count_char ":"%char ":30d" = 1%nat.
Proof.
  repeat split; try reflexivity.
  intros [H|[c H]]; discriminate H.
Qed.

(* ================================================================== *)
(** * Properties of the scheduler *)

Lemma last_snapshot_app (l : list snapshot) (s : snapshot) :
  last_snapshot (l ++ [s]) = Some s.
Proof.
  induction l as [|x r IH]; simpl; [reflexivity|].
  rewrite IH. now destruct (r ++ [s]) eqn:E; [destruct r|].
Qed.

Lemma last_snapshot_cases (l : list snapshot) :
  (l = [] /\ last_snapshot l = None) \/
  (exists r s, l = r ++ [s] /\ last_snapshot l = Some s).
Proof.
  destruct l as [|x l]; [now left|]. right.
  destruct (@exists_last _ (x :: l)) as (r & s & E); [discriminate|].
  exists r, s. split; [exact E|]. rewrite E. apply last_snapshot_app.
Qed.

Lemma last_snapshot_map (f : snapshot -> snapshot) (l : list snapshot) :
  last_snapshot (map f l) = option_map f (last_snapshot l).
Proof.
  destruct (last_snapshot_cases l) as [[-> _]|(r & s & -> & _)]; [reflexivity|].
  rewrite map_app. change (map f [s]) with [f s].
  now rewrite !last_snapshot_app.
Qed.

Lemma sorted_last_max (r : list snapshot) (s x : snapshot) :
  sorted_by_created_at (r ++ [s]) -> In x (r ++ [s]) ->
  created_at x <= created_at s.
Proof.
  unfold sorted_by_created_at. induction r as [|y r IH]; simpl; intros H Hx.
  - destruct Hx as [<-|[]]. lia.
  - inversion H as [|? ? Hr Hy]; subst. destruct Hx as [<-|Hx]; [|auto].
    rewrite Forall_forall in Hy. apply Hy. apply in_or_app. right. now left.
Qed.

Lemma snapshot_due_annotated (now min_age : Z) (l : list snapshot) :
  snapshot_due (map (annotate now) l) min_age = Ok (due_now l min_age now).
Proof.
  unfold snapshot_due, due_now. rewrite last_snapshot_map.
  now destruct (last_snapshot l).
Qed.

Lemma sync_all_spec (e : env) (a : args) (l : list snapshot) (w : world) :
  fst (sync_all e a l w) = map (grow_regions e a) l /\
  (dryrun a = true -> snd (sync_all e a l w) = w).
Proof.
  revert w. induction l as [|s r IH]; intros w; simpl; [auto|].
  destruct (IH (ensure_snapshot_regions e a s (region a) w)) as [IH1 IH2].
  destruct (sync_all e a r (ensure_snapshot_regions e a s (region a) w))
    as [r' w'] eqn:E. simpl in *. split; [now rewrite IH1|].
  intros Hd. rewrite (IH2 Hd), ensure_snapshot_regions_spec. now rewrite Hd.
Qed.

(** [process_droplet] in closed form, on a list with unique identifiers. *)
Lemma process_droplet_spec (e : env) (a : args) (d : droplet)
    (snapshots : list snapshot) (policies : list policy) (min_age : Z)
    (prefix : string) (now : Z) (w : world) :
  unique_ids snapshots ->
  exists w',
    process_droplet e a d snapshots policies min_age prefix now w
    = Ok (synced e a (filter (survives policies now (sort_by created_at snapshots))
                             (map (annotate now) (sort_by created_at snapshots))),
          if due_now (sort_by created_at snapshots) min_age now
          then Some (strftime_name prefix now) else None,
          w') /\
    (dryrun a = true -> w' = w).
Proof.
  intros Hu. unfold process_droplet. rewrite engine_spec by exact Hu. simpl.
  rewrite snapshot_due_annotated. unfold synced.
  set (survivors := filter _ _). set (w1 := delete_requests _ _ _).
  assert (Hw1 : dryrun a = true -> w1 = w)
    by (intros; now apply delete_requests_dryrun).
  destruct (region a) as [|r0 rs] eqn:Er.
  - simpl. destruct (due_now _ _ _); simpl; eexists; split; try reflexivity; auto.
    intros Hd. unfold api. rewrite Hd. auto.
  - destruct (sync_all_spec e a survivors w1) as [H1 H2].
    destruct (sync_all e a survivors w1) as [s' w2]. simpl in *. subst s'.
    assert (Hw2 : dryrun a = true -> w2 = w)
      by (intros Hd; rewrite (H2 Hd); auto).
    destruct (due_now _ _ _); simpl; eexists; split; try reflexivity; auto.
    intros Hd. unfold api. rewrite Hd. auto.
Qed.

Lemma due_now_input (snapshots : list snapshot) (min_age now : Z) :
  due_now (sort_by created_at snapshots) min_age now = true <->
  due_by_input snapshots min_age now.
Proof.
  unfold due_now, due_by_input.
  destruct (last_snapshot_cases (sort_by created_at snapshots))
    as [[E ->]|(r & s & E & ->)].
  - split; [|reflexivity]. intros _. left.
    apply Permutation_nil. rewrite <- E. apply sort_by_perm.
  - rewrite Z.leb_le. split.
    + intros H. right. eauto.
    + intros [->|(s' & [= <-] & H)]; [now destruct r|exact H].
Qed.

(** When no policy is younger than the minimum age, looking at the newest
    snapshot of the list or at the newest survivor decides the same. *)
Lemma due_now_survivors (e : env) (a : args) (snapshots : list snapshot)
    (policies : list policy) (min_age now : Z) :
  unique_ids snapshots ->
  (forall p, In p policies -> min_age <= snd p) ->
  due_now (sort_by created_at snapshots) min_age now = true <->
  due_by_survivors
    (synced e a (filter (survives policies now (sort_by created_at snapshots))
                        (map (annotate now) (sort_by created_at snapshots))))
    min_age now.
Proof.
  intros Hu Hmin.
  set (l := sort_by created_at snapshots).
  set (survivors := filter (survives policies now l) (map (annotate now) l)).
  assert (Hcr : forall f : snapshot -> snapshot,
             (forall s, created_at (f s) = created_at s) ->
             (due_by_survivors (map f survivors) min_age now <->
              due_by_survivors survivors min_age now)).
  { intros f Hf. unfold due_by_survivors. rewrite last_snapshot_map.
    destruct (last_snapshot_cases survivors) as [[-> _]|(r & s & E & ->)].
    - simpl. tauto.
    - rewrite E. simpl. split.
      + intros [H|(s' & [= <-] & H)]; [now destruct r|].
        right. exists s. rewrite <- (Hf s). auto.
      + intros [H|(s' & [= <-] & H)]; [now destruct r|].
        right. exists (f s). rewrite Hf. auto. }
  assert (Hsync : due_by_survivors (synced e a survivors) min_age now <->
                  due_by_survivors survivors min_age now).
  { unfold synced. destruct (region a); [tauto|]. now apply Hcr. }
  rewrite Hsync. clear Hcr Hsync.
  unfold due_now, due_by_survivors.
  destruct (last_snapshot_cases l) as [[E ->]|(r & s & E & ->)].
  - split; [|reflexivity]. intros _. left. unfold survivors. now rewrite E.
  - rewrite Z.leb_le.
    assert (Hsorted : sorted_by_created_at (map (annotate now) l))
      by apply sorted_prepared.
    assert (El : map (annotate now) l = map (annotate now) r ++ [annotate now s])
      by (rewrite E, map_app; reflexivity).
    split.
    + intros H.
      destruct (last_snapshot_cases survivors) as [[Es _]|(r' & s' & Es & ->)];
        [now left|right].
      exists s'. split; [reflexivity|].
      assert (Hs' : In s' (map (annotate now) l)).
      { assert (Hin : In s' survivors) by (rewrite Es; apply in_or_app; right; now left).
        now apply filter_In in Hin. }
      rewrite El in Hs', Hsorted.
      pose proof (sorted_last_max _ _ _ Hsorted Hs') as Hle. simpl in Hle. lia.
    + intros H.
      destruct (survives policies now l (annotate now s)) eqn:Eq.
      * assert (Elast : last_snapshot survivors = Some (annotate now s)).
        { unfold survivors. rewrite El, filter_app. simpl. rewrite Eq.
          apply last_snapshot_app. }
        destruct H as [H|(s' & Hs' & H)].
        -- rewrite H in Elast. discriminate.
        -- rewrite Elast in Hs'. injection Hs' as <-. exact H.
      * assert (Hin : In (annotate now s) (map (annotate now) l))
          by (rewrite El; apply in_or_app; right; now left).
        destruct (deleted_in_tier policies now Hu (annotate now s) Hin)
          as (k & Hk).
        { intros Hs. apply filter_In in Hs as [_ Hs].
          fold l in Hs. congruence. }
        apply first_policy_spec in Hk as (pre & post & Ep & Hk & _).
        simpl in Hk. specialize (Hmin k). rewrite Ep in Hmin.
        assert (min_age <= snd k) by (apply Hmin, in_or_app; right; now left).
        lia.
Qed.

(** The scheduler looks at the list it was given, not at the survivors:
    with a minimum age of 3 days, a policy keeping one snapshot every 5
    days from age 0 on, a snapshot aged exactly 3 days and one aged one
    hour, the retention pass deletes the younger one, the sole survivor
    is aged exactly 3 days, and no snapshot is taken. *)
Lemma scheduler_ignores_survivors :
  process_droplet sample_env live simulated
    [snap 1 (days 0); snap 2 (days 3 - hours 1)]
    [(days 5, 0)] (days 3) "web-autosnapshot-" (days 3) []
  = Ok ([annotate (days 3) (snap 1 (days 0))], None, [DeleteSnapshot 2]) /\
  age (annotate (days 3) (snap 1 (days 0))) = Some (days 3) /\
  due_by_survivors [annotate (days 3) (snap 1 (days 0))] (days 3) (days 3).
Proof.
  split; [reflexivity|]. split; [reflexivity|].
  right. eexists. split; [reflexivity|]. simpl. lia.
Qed.

(** C1 (amended). The scheduler decision is a function of the list
    handed to [process_droplet]: a snapshot is taken if and only if that
    list is empty or its most recent snapshot, deleted by the retention
    pass or not, has an age of at least the minimum age. When no policy
    has an age below the minimum age, this is the same as: the survivors
    are empty or the most recent survivor has an age of at least the
    minimum age. With a minimum age of 3 days and one snapshot in the
    list, a snapshot is taken when it is aged exactly 3 days and none
    when it is aged 2 days 23 hours. *)
Theorem scheduler_decision (e : env) (a : args) (d : droplet)
    (snapshots : list snapshot) (policies : list policy) (min_age : Z)
    (prefix : string) (now : Z) (w : world) :
  unique_ids snapshots ->
  exists survivors taken w',
    process_droplet e a d snapshots policies min_age prefix now w
    = Ok (survivors, taken, w') /\
    (taken <> None <-> due_by_input snapshots min_age now) /\
    ((forall p, In p policies -> min_age <= snd p) ->
     (taken <> None <-> due_by_survivors survivors min_age now)) /\
    (forall s, snapshots = [s] -> min_age = days 3 ->
               (now - created_at s = days 3 -> taken <> None) /\
               (now - created_at s = days 3 - hours 1 -> taken = None)).
Proof.
  intros Hu.
  destruct (process_droplet_spec e a d policies min_age prefix now w Hu)
    as (w' & E & _).
  do 3 eexists. split; [exact E|].
  assert (Htaken : forall b : bool,
             (if b then Some (strftime_name prefix now) else None) <> None
             <-> b = true)
    by (intros []; split; congruence).
  split; [|split].
  - rewrite Htaken. apply due_now_input.
  - intros Hmin. rewrite Htaken. now apply due_now_survivors.
  - intros s -> ->. unfold due_now. simpl. split; intros H.
    + rewrite H. discriminate.
    + rewrite H. reflexivity.
Qed.

Lemma scheduler_decision_witness :
  exists survivors taken w',
    process_droplet sample_env live simulated [snap 1 (days 0)]
      [(days 7, days 7)] (days 3) "web-autosnapshot-" (days 3) []
    = Ok (survivors, taken, w') /\
    (taken <> None <-> due_by_input [snap 1 (days 0)] (days 3) (days 3)) /\
    ((forall p, In p [(days 7, days 7)] -> days 3 <= snd p) ->
     (taken <> None <-> due_by_survivors survivors (days 3) (days 3))) /\
    (forall s, [snap 1 (days 0)] = [s] -> days 3 = days 3 ->
               (days 3 - created_at s = days 3 -> taken <> None) /\
               (days 3 - created_at s = days 3 - hours 1 -> taken = None)).
Proof.
  apply (@scheduler_decision sample_env live simulated [snap 1 (days 0)]
           [(days 7, days 7)] (days 3) "web-autosnapshot-" (days 3) []).
  unique_ids_tac.
Defined.

(* ================================================================== *)
(** * Facts about the simulation *)

Lemma truthy_name (prefix : string) (now : Z) :
  truthy (strftime_name prefix now) = true.
Proof.
  unfold strftime_name, stamp, year_text.
  destruct (civil_of_days _) as [[y m] d].
  destruct prefix; [|reflexivity]. simpl.
  destruct (y <? 10); [reflexivity|].
  destruct (y <? 100); [reflexivity|].
  destruct (y <? 1000); reflexivity.
Qed.

Lemma datetime_add_ok (now delta t : Z) :
  datetime_add now delta = Ok t -> t = now + delta.
Proof.
  unfold datetime_add. destruct (_ && _)%bool; [|discriminate]. now intros [= <-].
Qed.

Lemma datetime_add_raises (now delta : Z) (x : exn) :
  datetime_add now delta = Raise x -> x = OverflowError.
Proof.
  unfold datetime_add. destruct (_ && _)%bool; [discriminate|]. now intros [= <-].
Qed.

Lemma datetime_add_in_range (now delta : Z) :
  DATETIME_MIN <= now + delta <= DATETIME_MAX ->
  datetime_add now delta = Ok (now + delta).
Proof.
  intros [H1 H2]. unfold datetime_add.
  apply Z.leb_le in H1, H2. now rewrite H1, H2.
Qed.

(** One turn of [process_droplet] in the simulation, where nothing is
    sent. *)
Lemma process_droplet_dryrun (e : env) (a : args) (d : droplet)
    (snapshots : list snapshot) (policies : list policy) (min_age : Z)
    (prefix : string) (now : Z) (w : world) :
  dryrun a = true ->
  unique_ids snapshots ->
  process_droplet e a d snapshots policies min_age prefix now w
  = Ok (synced e a (retained policies now snapshots),
        if due_now (sort_by created_at snapshots) min_age now
        then Some (strftime_name prefix now) else None,
        w).
Proof.
  intros Hd Hu.
  destruct (process_droplet_spec e a d policies min_age prefix now w Hu)
    as (w' & E & Hw).
  rewrite E. now rewrite (Hw Hd).
Qed.

Lemma synced_ids (e : env) (a : args) (l : list snapshot) :
  map id (synced e a l) = map id l.
Proof.
  unfold synced. destruct (region a); [reflexivity|].
  rewrite map_map. now apply map_ext.
Qed.

Lemma retained_unique (policies : list policy) (now : Z) (l : list snapshot) :
  unique_ids l -> unique_ids (retained policies now l).
Proof. apply survivors_unique. Qed.

Lemma retained_ids (policies : list policy) (now : Z) (l : list snapshot) (i : Z) :
  In i (map id (retained policies now l)) -> In i (map id l).
Proof.
  intros H. apply in_map_iff in H as (s & <- & Hs).
  apply filter_In in Hs as [Hs _]. apply in_map_iff in Hs as (s0 & <- & Hs0).
  apply in_sort_by in Hs0. simpl. now apply in_map.
Qed.

Lemma step_inv (e : env) (a : args) (policies : list policy) (now idgen : Z)
    (l : list snapshot) (taken : option string) :
  sim_inv idgen l ->
  sim_inv (idgen + 1)
    (record_snapshot idgen now (synced e a (retained policies now l)) taken).
Proof.
  intros [Hu Hlt].
  assert (Hids : forall i, In i (map id (synced e a (retained policies now l))) ->
                           i < idgen).
  { intros i Hi. rewrite synced_ids in Hi. apply retained_ids in Hi.
    apply in_map_iff in Hi as (s & <- & Hs). now apply Hlt. }
  assert (Hu' : unique_ids (synced e a (retained policies now l))).
  { unfold unique_ids. rewrite synced_ids. now apply retained_unique. }
  assert (Hbase : sim_inv (idgen + 1) (synced e a (retained policies now l))).
  { split; [exact Hu'|]. intros s Hs.
    specialize (Hids (id s) (in_map id _ _ Hs)). lia. }
  unfold record_snapshot. destruct taken as [n|]; [|exact Hbase].
  destruct (truthy n); [|exact Hbase]. split.
  - unfold unique_ids. rewrite map_app. simpl. apply NoDup_app.
    + exact Hu'.
    + repeat constructor. simpl. tauto.
    + intros i Hi [<-|[]]. specialize (Hids _ Hi). lia.
  - intros s Hs. apply in_app_or in Hs as [Hs|[<-|[]]].
    + specialize (Hids (id s) (in_map id _ _ Hs)). lia.
    + simpl. lia.
Qed.

Section Erase.
Variable policies : list policy.
Variable now : Z.

Lemma dict_append_erase (k : policy) (s : snapshot)
    (groups : list (policy * list snapshot)) :
  dict_append policy_eqb k (erase_regions s) (erase_groups groups)
  = erase_groups (dict_append policy_eqb k s groups).
Proof.
  unfold erase_groups.
  induction groups as [|[q g] r IH]; simpl; [reflexivity|].
  destruct (policy_eqb k q); simpl.
  - rewrite map_app. reflexivity.
  - now rewrite IH.
Qed.

Lemma classify_erase (done : list snapshot)
    (groups : list (policy * list snapshot)) (s : snapshot) :
  classify policies now (map erase_regions done, erase_groups groups)
           (erase_regions s)
  = (map erase_regions (fst (classify policies now (done, groups) s)),
     erase_groups (snd (classify policies now (done, groups) s))).
Proof.
  unfold classify. simpl. rewrite map_app. simpl. f_equal.
  destruct (first_policy policies (now - created_at s)); [|reflexivity].
  apply (dict_append_erase p (annotate now s)).
Qed.

Lemma group_by_policy_erase (l : list snapshot) :
  group_by_policy policies now (map erase_regions l)
  = (map erase_regions (fst (group_by_policy policies now l)),
     erase_groups (snd (group_by_policy policies now l))).
Proof.
  unfold group_by_policy.
  change (@nil snapshot, @nil (policy * list snapshot))
    with (map erase_regions [], erase_groups []) at 1.
  generalize (@nil snapshot) (@nil (policy * list snapshot)).
  induction l as [|s r IH]; intros done groups; [reflexivity|].
  simpl map. simpl fold_left. rewrite classify_erase.
  destruct (classify policies now (done, groups) s) as [done' groups'].
  apply IH.
Qed.

Lemma doomed_erase (interval : Z) (g : list snapshot) :
  forall last_kept,
    doomed interval last_kept (map erase_regions g)
    = map erase_regions (doomed interval last_kept g).
Proof.
  induction g as [|s r IH]; simpl; intros last_kept; [reflexivity|].
  change (too_close interval last_kept (erase_regions s))
    with (too_close interval last_kept s).
  destruct (too_close interval last_kept s); simpl; now rewrite IH.
Qed.

Lemma doomed_all_erase (groups : list (policy * list snapshot)) :
  doomed_all (erase_groups groups) = map erase_regions (doomed_all groups).
Proof.
  unfold doomed_all, erase_groups.
  induction groups as [|[k g] r IH]; simpl; [reflexivity|].
  now rewrite map_app, doomed_erase, IH.
Qed.

Lemma survives_erase (l : list snapshot) (s : snapshot) :
  survives policies now (map erase_regions l) (erase_regions s)
  = survives policies now l s.
Proof.
  unfold survives. rewrite group_by_policy_erase. simpl snd.
  rewrite doomed_all_erase, map_map. reflexivity.
Qed.

(** The survivors, regions apart, are determined by the list, regions
    apart. *)
Lemma retained_erase (l : list snapshot) :
  map erase_regions (retained policies now l)
  = retained policies now (map erase_regions l).
Proof.
  unfold retained.
  rewrite (sort_by_map created_at erase_regions) by reflexivity.
  set (sorted := sort_by created_at l).
  assert (E : map (annotate now) (map erase_regions sorted)
              = map erase_regions (map (annotate now) sorted))
    by (rewrite !map_map; now apply map_ext).
  rewrite E.
  rewrite (filter_map_comm erase_regions
             (survives policies now (map erase_regions sorted))).
  f_equal. apply filter_ext. intros s. symmetry. apply survives_erase.
Qed.
End Erase.

Lemma synced_erase (e : env) (a : args) (l : list snapshot) :
  map erase_regions (synced e a l) = map erase_regions l.
Proof.
  unfold synced. destruct (region a); [reflexivity|].
  rewrite map_map. now apply map_ext.
Qed.

Lemma record_snapshot_erase (i now : Z) (l : list snapshot) (taken : option string) :
  map erase_regions (record_snapshot i now l taken)
  = record_snapshot i now (map erase_regions l) taken.
Proof.
  unfold record_snapshot. destruct taken as [n|]; [|reflexivity].
  destruct (truthy n); [|reflexivity]. now rewrite map_app.
Qed.

Lemma due_now_erase (l : list snapshot) (min_age now : Z) :
  due_now (sort_by created_at (map erase_regions l)) min_age now
  = due_now (sort_by created_at l) min_age now.
Proof.
  rewrite (sort_by_map created_at erase_regions) by reflexivity.
  unfold due_now. rewrite last_snapshot_map.
  now destruct (last_snapshot (sort_by created_at l)).
Qed.

Lemma sim_inv_erase (idgen : Z) (l1 l2 : list snapshot) :
  map erase_regions l1 = map erase_regions l2 ->
  sim_inv idgen l1 -> sim_inv idgen l2.
Proof.
  intros E. assert (Hid : map id l1 = map id l2).
  { assert (H : forall l, map id (map erase_regions l) = map id l)
      by (intros l; rewrite map_map; now apply map_ext).
    now rewrite <- (H l1), <- (H l2), E. }
  intros [Hu Hlt]. split; [unfold unique_ids; now rewrite <- Hid|].
  intros s Hs. apply (in_map id) in Hs. rewrite <- Hid in Hs.
  apply in_map_iff in Hs as (s' & <- & Hs'). now apply Hlt.
Qed.

Lemma report_erase (l : list snapshot) :
  report (map erase_regions l) = report l.
Proof. unfold report. rewrite map_map. now apply map_ext. Qed.

Lemma other_env_ok : env_ok other_env.
Proof.
  intros l. simpl. split.
  - apply NoDup_rev, NoDup_nodup.
  - intros x. rewrite <- in_rev. apply nodup_In.
Qed.

Section RegionOrder.
Variable policies : list policy.
Variable now : Z.

Lemma related_created_at (s t : snapshot) :
  same_but_region_order s t -> created_at s = created_at t.
Proof. intros [E _]. exact (f_equal created_at E). Qed.

Lemma related_erase (l m : list snapshot) :
  Forall2 same_but_region_order l m ->
  map erase_regions l = map erase_regions m.
Proof.
  induction 1 as [|s t l m [E _] _ IH]; simpl; [reflexivity|].
  now rewrite E, IH.
Qed.

Lemma related_insert (x y : snapshot) (l m : list snapshot) :
  same_but_region_order x y ->
  Forall2 same_but_region_order l m ->
  Forall2 same_but_region_order (insert_by created_at x l) (insert_by created_at y m).
Proof.
  intros Hxy. induction 1 as [|s t l m Hst Hlm IH]; simpl.
  - constructor; [exact Hxy|constructor].
  - rewrite <- (related_created_at Hxy), <- (related_created_at Hst).
    destruct (created_at x <=? created_at s).
    + constructor; [exact Hxy|]. constructor; [exact Hst|exact Hlm].
    + constructor; [exact Hst|exact IH].
Qed.

Lemma related_sort (l m : list snapshot) :
  Forall2 same_but_region_order l m ->
  Forall2 same_but_region_order (sort_by created_at l) (sort_by created_at m).
Proof.
  induction 1 as [|s t l m Hst Hlm IH]; simpl; [constructor|].
  now apply related_insert.
Qed.

Lemma related_annotate (l m : list snapshot) :
  Forall2 same_but_region_order l m ->
  Forall2 same_but_region_order (map (annotate now) l) (map (annotate now) m).
Proof.
  induction 1 as [|s t l m [E Hr] _ IH]; simpl; constructor; [|exact IH].
  split; [|exact Hr].
  change (annotate now (erase_regions s) = annotate now (erase_regions t)).
  now rewrite E.
Qed.

Lemma related_filter (p q : snapshot -> bool) (l m : list snapshot) :
  (forall s t, same_but_region_order s t -> p s = q t) ->
  Forall2 same_but_region_order l m ->
  Forall2 same_but_region_order (filter p l) (filter q m).
Proof.
  intros Hpq. induction 1 as [|s t l m Hst Hlm IH]; simpl; [constructor|].
  rewrite (Hpq s t Hst). destruct (q t); [constructor|]; auto.
Qed.

Lemma related_retained (l m : list snapshot) :
  Forall2 same_but_region_order l m ->
  Forall2 same_but_region_order (retained policies now l) (retained policies now m).
Proof.
  intros H. unfold retained. apply related_filter.
  - intros s t [E _].
    rewrite <- (survives_erase policies now (sort_by created_at l) s).
    rewrite <- (survives_erase policies now (sort_by created_at m) t).
    now rewrite E, (related_erase (related_sort H)).
  - apply related_annotate. now apply related_sort.
Qed.
End RegionOrder.

Lemma related_synced (e1 e2 : env) (a : args) (l m : list snapshot) :
  env_ok e1 -> env_ok e2 ->
  Forall2 same_but_region_order l m ->
  Forall2 same_but_region_order (synced e1 a l) (synced e2 a m).
Proof.
  intros H1 H2 H. unfold synced. destruct (region a) as [|r0 rs]; [exact H|].
  induction H as [|s t l m [E Hr] _ IH]; simpl; constructor; [|exact IH].
  split; [exact E|]. intros r. simpl.
  rewrite (proj2 (H1 _) r), (proj2 (H2 _) r), !in_app_iff, Hr. tauto.
Qed.

Lemma related_record (i now : Z) (l m : list snapshot) (taken : option string) :
  Forall2 same_but_region_order l m ->
  Forall2 same_but_region_order (record_snapshot i now l taken)
                                (record_snapshot i now m taken).
Proof.
  intros H. unfold record_snapshot. destruct taken as [n|]; [|exact H].
  destruct (truthy n); [|exact H]. apply Forall2_app; [exact H|].
  constructor; [|constructor]. split; [reflexivity|tauto].
Qed.

Section Loop.
Variable a : args.
Variable policies : list policy.
Variables (min_age : Z) (prefix : string) (stop : Z).
Hypothesis Hdry : dryrun a = true.

(** With a positive interval the loop is left after at most
    [stop - now] turns, by its test or by the [OverflowError] of the
    addition on [now]; [process_droplet] never raises in it. *)
Lemma simulate_loop_returns (e : env) (interval : Z) :
  0 < interval ->
  forall fuel now idgen l w,
    sim_inv idgen l ->
    (Z.to_nat (stop - now) < fuel)%nat ->
    exists r,
      simulate_loop fuel e a policies min_age prefix interval stop now idgen l w
      = Some r /\
      ((exists l', r = Ok (l', w)) \/ r = Raise OverflowError).
Proof.
  intros Hpos. induction fuel as [|fuel IH]; intros now idgen l w Hinv Hfuel;
    [lia|].
  cbn [simulate_loop]. destruct (Z.ltb_spec now stop) as [Hlt|Hge].
  - rewrite process_droplet_dryrun by (auto; apply Hinv).
    destruct (datetime_add now interval) as [t|x] eqn:Et.
    + apply datetime_add_ok in Et. subst t.
      apply IH; [now apply step_inv|lia].
    + apply datetime_add_raises in Et. subst x. eauto.
  - eauto.
Qed.

(** With a zero interval the clock stays where it is and the loop is
    never left: every turn completes and finds [now < stop] again. *)
Lemma simulate_loop_stuck (e : env) (now : Z) :
  DATETIME_MIN <= now <= DATETIME_MAX ->
  now < stop ->
  forall fuel idgen l w,
    sim_inv idgen l ->
    simulate_loop fuel e a policies min_age prefix 0 stop now idgen l w = None.
Proof.
  intros Hrange Hlt. induction fuel as [|fuel IH]; intros idgen l w Hinv;
    [reflexivity|].
  cbn [simulate_loop]. destruct (Z.ltb_spec now stop) as [_|Hge]; [|lia].
  rewrite process_droplet_dryrun by (auto; apply Hinv).
  rewrite datetime_add_in_range by lia. rewrite Z.add_0_r.
  apply IH. now apply step_inv.
Qed.

(** Two runs of the loop from lists that agree regions apart, whatever
    the iteration order of sets and the fuel of each. *)
Lemma simulate_loop_deterministic (e1 e2 : env) (interval : Z) :
  forall fuel1 fuel2 now idgen l1 l2 r1 r2,
    sim_inv idgen l1 ->
    map erase_regions l1 = map erase_regions l2 ->
    (region a = [] -> l1 = l2) ->
    simulate_loop fuel1 e1 a policies min_age prefix interval stop now idgen l1 []
    = Some r1 ->
    simulate_loop fuel2 e2 a policies min_age prefix interval stop now idgen l2 []
    = Some r2 ->
    same_outcome (region a) r1 r2.
Proof.
  induction fuel1 as [|fuel1 IH]; intros fuel2 now idgen l1 l2 r1 r2 Hinv E Hsame H1 H2;
    [discriminate|].
  destruct fuel2 as [|fuel2]; [discriminate|].
  cbn [simulate_loop] in H1, H2.
  pose proof (@sim_inv_erase idgen l1 l2 E Hinv) as Hinv2.
  destruct (now <? stop).
  - rewrite process_droplet_dryrun in H1 by (auto; apply Hinv).
    rewrite process_droplet_dryrun in H2 by (auto; apply Hinv2).
    assert (Edue : due_now (sort_by created_at l2) min_age now
                   = due_now (sort_by created_at l1) min_age now)
      by (now rewrite <- (due_now_erase l1), <- (due_now_erase l2), E).
    rewrite Edue in H2.
    destruct (datetime_add now interval) as [t|x].
    + eapply IH; [| | |exact H1|exact H2].
      * now apply step_inv.
      * now rewrite !record_snapshot_erase, !synced_erase, !retained_erase, E.
      * intros Hr. unfold synced. rewrite Hr. now rewrite (Hsame Hr).
    + injection H1 as <-. injection H2 as <-. reflexivity.
  - injection H1 as <-. injection H2 as <-. simpl.
    split; [now rewrite <- (report_erase l1), <- (report_erase l2), E|].
    auto.
Qed.
(** With iteration orders that list every element of a set, the two
    final lists also agree on the set of regions of each snapshot. *)
Lemma simulate_loop_related (e1 e2 : env) (interval : Z) :
  env_ok e1 -> env_ok e2 ->
  forall fuel1 fuel2 now idgen l1 l2 f1 f2 w1 w2,
    sim_inv idgen l1 ->
    Forall2 same_but_region_order l1 l2 ->
    simulate_loop fuel1 e1 a policies min_age prefix interval stop now idgen l1 []
    = Some (Ok (f1, w1)) ->
    simulate_loop fuel2 e2 a policies min_age prefix interval stop now idgen l2 []
    = Some (Ok (f2, w2)) ->
    Forall2 same_but_region_order f1 f2.
Proof.
  intros He1 He2.
  induction fuel1 as [|fuel1 IH];
    intros fuel2 now idgen l1 l2 f1 f2 w1 w2 Hinv Hrel H1 H2; [discriminate|].
  destruct fuel2 as [|fuel2]; [discriminate|].
  cbn [simulate_loop] in H1, H2.
  pose proof (related_erase Hrel) as E.
  pose proof (@sim_inv_erase idgen l1 l2 E Hinv) as Hinv2.
  destruct (now <? stop).
  - rewrite process_droplet_dryrun in H1 by (auto; apply Hinv).
    rewrite process_droplet_dryrun in H2 by (auto; apply Hinv2).
    assert (Edue : due_now (sort_by created_at l2) min_age now
                   = due_now (sort_by created_at l1) min_age now)
      by (now rewrite <- (due_now_erase l1), <- (due_now_erase l2), E).
    rewrite Edue in H2.
    destruct (datetime_add now interval) as [t|x]; [|discriminate].
    eapply IH; [| |exact H1|exact H2].
    + now apply step_inv.
    + apply related_record, related_synced; auto. now apply related_retained.
  - injection H1 as <- _. injection H2 as <- _. exact Hrel.
Qed.
End Loop.

(* ================================================================== *)
(** * Properties of the simulation *)

(** With two wanted regions, two runs on the same arguments that
    iterate over sets in different orders end with different lists: the
    regions of the first snapshot are listed in another order. *)
Lemma simulation_region_order_differs :
  exists l1 l2,
    simulate 10 sample_env ["nyc1"; "sfo2"] [] (days 1) "web-autosnapshot-"
      (hours 12) (days 1) sample_start = Some (Ok (l1, [])) /\
    simulate 10 other_env ["nyc1"; "sfo2"] [] (days 1) "web-autosnapshot-"
      (hours 12) (days 1) sample_start = Some (Ok (l2, [])) /\
    map regions l1 = [["nyc1"; "sfo2"]] /\
    map regions l2 = [["sfo2"; "nyc1"]] /\
    l1 <> l2.
Proof.
  do 2 eexists.
  split; [vm_compute; reflexivity|]. split; [vm_compute; reflexivity|].
  split; [reflexivity|]. split; [reflexivity|].
  intros H. apply (f_equal (map regions)) in H. discriminate H.
Qed.

(** C6 (amended). Determinism of the simulation. Two runs with the same
    policies, minimum age, interval, duration and start time (and the
    same name prefix and wanted regions), whatever the order in which
    each run iterates over sets of strings and however long each is
    allowed to run, end in the same way: the same exception, or lists
    that give the same printed report, hold the same snapshots in the
    same order, equal in every field but the regions, each snapshot
    being in the same set of regions in both runs. With no wanted region
    the two lists are equal; with wanted regions the order in which a
    snapshot's regions are listed follows the iteration order of sets.
    No request is sent. *)
Theorem simulation_deterministic (e1 e2 : env) (fuel1 fuel2 : nat)
    (wanted : list string) (policies : list policy) (min_age : Z)
    (prefix : string) (interval duration now : Z)
    (r1 r2 : result (list snapshot * world)) :
  simulate fuel1 e1 wanted policies min_age prefix interval duration now = Some r1 ->
  simulate fuel2 e2 wanted policies min_age prefix interval duration now = Some r2 ->
  match r1, r2 with
  | Ok (l1, w1), Ok (l2, w2) =>
      report l1 = report l2 /\
      map erase_regions l1 = map erase_regions l2 /\
      (env_ok e1 -> env_ok e2 -> Forall2 same_but_region_order l1 l2) /\
      (wanted = [] -> l1 = l2) /\
      w1 = [] /\ w2 = []
  | Raise x1, Raise x2 => x1 = x2
  | _, _ => False
  end.
Proof.
  unfold simulate. intros H1 H2.
  destruct (datetime_add now duration) as [stop|x].
  - assert (Hinv : sim_inv 0 []) by (split; [constructor|intros s []]).
    pose proof (@simulate_loop_deterministic
                  {| dryrun := true; region := wanted |} policies min_age prefix
                  stop eq_refl e1 e2 interval fuel1 fuel2 now 0 [] [] r1 r2
                  Hinv eq_refl (fun _ => eq_refl) H1 H2) as Hsame.
    destruct r1 as [[l1 w1]|x1], r2 as [[l2 w2]|x2]; simpl in Hsame; try exact Hsame.
    destruct Hsame as (A & B & C & D & E). repeat split; auto.
    intros He1 He2.
    eapply (@simulate_loop_related
              {| dryrun := true; region := wanted |} policies min_age prefix
              stop eq_refl e1 e2 interval He1 He2);
      [exact Hinv|constructor|exact H1|exact H2].
  - injection H1 as <-. injection H2 as <-. reflexivity.
Qed.

Lemma simulation_deterministic_witness :
  exists l1 l2,
    simulate 40 sample_env ["nyc1"; "sfo2"] [(days 2, days 2)] (days 1)
      "web-autosnapshot-" (hours 12) (days 4) sample_start = Some (Ok (l1, [])) /\
    simulate 70 other_env ["nyc1"; "sfo2"] [(days 2, days 2)] (days 1)
      "web-autosnapshot-" (hours 12) (days 4) sample_start = Some (Ok (l2, [])) /\
    report l1 = report l2 /\
    map erase_regions l1 = map erase_regions l2 /\
    Forall2 same_but_region_order l1 l2.
Proof.
  do 2 eexists.
  split; [vm_compute; reflexivity|]. split; [vm_compute; reflexivity|].
  match goal with
  | |- report ?l1 = report ?l2 /\ _ =>
      assert (H1 : simulate 40 sample_env ["nyc1"; "sfo2"] [(days 2, days 2)] (days 1)
                     "web-autosnapshot-" (hours 12) (days 4) sample_start
                   = Some (Ok (l1, []))) by (vm_compute; reflexivity);
      assert (H2 : simulate 70 other_env ["nyc1"; "sfo2"] [(days 2, days 2)] (days 1)
                     "web-autosnapshot-" (hours 12) (days 4) sample_start
                   = Some (Ok (l2, []))) by (vm_compute; reflexivity);
      destruct (simulation_deterministic _ _ _ _ _ _ _ _ _ _ _ H1 H2)
        as (A & B & C & _)
  end.
  split; [exact A|]. split; [exact B|].
  apply C; [apply sample_env_ok|apply other_env_ok].
Defined.

(** C10. Termination of the simulation. For every interval above zero
    the loop is left: some number of turns is enough, and with that many
    or more the run ends, with the final list or, when the clock would
    pass the last [datetime], with [OverflowError]. An interval of zero
    is accepted by the parser; with it and a duration above zero (the end
    time being a [datetime]) the loop is never left, however many turns
    it is given. *)
Theorem simulation_termination (e : env) (wanted : list string)
    (policies : list policy) (min_age : Z) (prefix : string)
    (interval duration now : Z) :
  (0 < interval ->
   exists n, forall fuel, (n <= fuel)%nat ->
     exists r,
       simulate fuel e wanted policies min_age prefix interval duration now = Some r /\
       ((exists l, r = Ok (l, [])) \/ r = Raise OverflowError)) /\
  (interval = 0 -> 0 < duration ->
   DATETIME_MIN <= now -> now + duration <= DATETIME_MAX ->
   forall fuel,
     simulate fuel e wanted policies min_age prefix interval duration now = None) /\
  parse_pair SimulateForm "0d:5d" = Ok (0, days 5).
Proof.
  split; [|split; [|reflexivity]].
  - intros Hpos. unfold simulate.
    destruct (datetime_add now duration) as [stop|x] eqn:Es.
    + exists (S (Z.to_nat (stop - now))). intros fuel Hfuel.
      apply simulate_loop_returns; [reflexivity|exact Hpos| |lia].
      split; [constructor|intros s []].
    + exists O. intros fuel _. apply datetime_add_raises in Es. subst x. eauto.
  - intros -> Hdur Hmin Hmax fuel. unfold simulate.
    rewrite datetime_add_in_range by lia.
    apply simulate_loop_stuck; [reflexivity|lia|lia|].
    split; [constructor|intros s []].
Qed.

Lemma simulation_termination_witness :
  (exists n, forall fuel, (n <= fuel)%nat ->
     exists r,
       simulate fuel sample_env [] [(days 2, days 2)] (days 1)
         "web-autosnapshot-" (hours 12) (days 4) sample_start = Some r /\
       ((exists l, r = Ok (l, [])) \/ r = Raise OverflowError)) /\
  (forall fuel,
     simulate fuel sample_env [] [(days 2, days 2)] (days 1)
       "web-autosnapshot-" 0 (days 4) sample_start = None).
Proof.
  split.
  - apply (proj1 (@simulation_termination sample_env [] [(days 2, days 2)] (days 1)
                    "web-autosnapshot-" (hours 12) (days 4) sample_start)).
    reflexivity.
  - apply (proj1 (proj2 (@simulation_termination sample_env [] [(days 2, days 2)]
                           (days 1) "web-autosnapshot-" 0 (days 4) sample_start)));
      [reflexivity|reflexivity|discriminate|discriminate].
Defined.

(* ================================================================== *)
(** * Further properties of the parsers *)

Lemma last_char_app (m : string) (c : ascii) :
  last_char (m ++ String c EmptyString) = Some c.
Proof.
  induction m as [|b m IH]; simpl; [reflexivity|].
  rewrite IH. now destruct (m ++ String c EmptyString)%string eqn:E; [destruct m|].
Qed.

Lemma but_last_app (m : string) (c : ascii) :
  but_last (m ++ String c EmptyString) = m.
Proof.
  induction m as [|b m IH]; simpl; [reflexivity|].
  rewrite IH. now destruct (m ++ String c EmptyString)%string eqn:E; [destruct m|].
Qed.

Lemma timedelta_in_range (k : kwargs) :
  - MAX_DELTA_DAYS * 86400
  <= kw_days k * 86400 + kw_hours k * 3600 + kw_weeks k * 604800
  < (MAX_DELTA_DAYS + 1) * 86400 ->
  timedelta k = Ok (kw_days k * 86400 + kw_hours k * 3600 + kw_weeks k * 604800).
Proof.
  intros [Hlo Hhi]. unfold timedelta.
  set (total := kw_days k * 86400 + kw_hours k * 3600 + kw_weeks k * 604800) in *.
  assert (H1 : - MAX_DELTA_DAYS <= total / 86400)
    by (apply Z.div_le_lower_bound; lia).
  assert (H2 : total / 86400 < MAX_DELTA_DAYS + 1)
    by (apply Z.div_lt_upper_bound; lia).
  apply Z.leb_le in H1. assert (H3 : total / 86400 <= MAX_DELTA_DAYS) by lia.
  apply Z.leb_le in H3. now rewrite H1, H3.
Qed.

(** X1. Units of a duration. A token made of a magnitude that [int]
    reads as [x] and of a unit letter stands for [x] hours, [x] days,
    [7 x] days for weeks and [30 x] days for months, whenever [30 x]
    days is a [timedelta]. *)
Theorem parse_interval_units (m : string) (x : Z) :
  py_int m = Some x ->
  - MAX_DELTA_DAYS <= 30 * x <= MAX_DELTA_DAYS ->
  parse_interval (m ++ "h") = Ok (hours x) /\
  parse_interval (m ++ "d") = Ok (days x) /\
  parse_interval (m ++ "w") = Ok (days (7 * x)) /\
  parse_interval (m ++ "m") = Ok (days (30 * x)).
Proof.
  intros Hx Hr. unfold parse_interval, MAX_DELTA_DAYS in *.
  rewrite !last_char_app, !but_last_app, Hx.
  cbv [suffixmap Ascii.eqb Bool.eqb andb]. unfold hours, days.
  repeat split;
    (rewrite timedelta_in_range; unfold MAX_DELTA_DAYS;
     cbn [kw_days kw_hours kw_weeks]; [f_equal; lia|lia]).
Qed.

Lemma parse_interval_units_witness :
  parse_interval ("2" ++ "h") = Ok (hours 2) /\
  parse_interval ("2" ++ "d") = Ok (days 2) /\
  parse_interval ("2" ++ "w") = Ok (days (7 * 2)) /\
  parse_interval ("2" ++ "m") = Ok (days (30 * 2)).
Proof.
  apply (@parse_interval_units "2" 2); [reflexivity|].
  unfold MAX_DELTA_DAYS. lia.
Defined.

(** X2. What [parse_interval] can raise. [IndexError] exactly on the
    empty token; otherwise only the [ValueError] of a bad unit or of a
    magnitude that is no integer, or the [OverflowError] of [timedelta];
    a bad unit is reported before a bad magnitude. *)
Theorem parse_interval_outcomes (token : string) :
  (parse_interval token = Raise IndexError <-> token = "") /\
  (forall e, parse_interval token = Raise e ->
             e = IndexError \/ InvalidDurationError e \/ e = OverflowError) /\
  (forall c, last_char token = Some c -> suffixmap c = None ->
             parse_interval token = Raise (ValueError (UnsupportedSuffix c))).
Proof.
  unfold parse_interval, InvalidDurationError. split; [|split].
  - destruct token as [|b r]; [split; reflexivity|].
    split; [|discriminate].
    assert (H : last_char (String b r) <> None).
    { clear. revert b. induction r as [|c r IH]; intros b; simpl; [discriminate|].
      apply IH. }
    destruct (last_char (String b r)) as [c|]; [|congruence].
    destruct (suffixmap c); [|discriminate].
    destruct (py_int (but_last (String b r))); [|discriminate].
    intros E. apply timedelta_raises in E. discriminate.
  - intros e. destruct (last_char token) as [c|]; [|intros [= <-]; auto].
    destruct (suffixmap c); [|intros [= <-]; eauto].
    destruct (py_int (but_last token)); [|intros [= <-]; auto].
    intros E. apply timedelta_raises in E. auto.
  - intros c -> ->. reflexivity.
Qed.

Lemma parse_interval_outcomes_witness :
  parse_interval "x3q" = Raise (ValueError (UnsupportedSuffix "q"%char)).
Proof.
  apply (proj2 (proj2 (parse_interval_outcomes "x3q")) "q"%char); reflexivity.
Defined.

Lemma descending_of_sorted (l : list policy) :
  StronglySorted (fun p q => - snd p <= - snd q) l -> descending_age l.
Proof.
  unfold descending_age. induction 1 as [|p r Hr IH Hp]; constructor; [exact IH|].
  eapply Forall_impl; [|exact Hp]. simpl. intros; lia.
Qed.

Lemma parse_keeps_length (keep : list string) (ps : list policy) :
  parse_keeps keep = Ok ps -> List.length ps = List.length keep.
Proof.
  revert ps. induction keep as [|k r IH]; simpl; intros ps H.
  - now inversion H.
  - destruct (parse_pair KeepForm k); simpl in H; [|discriminate].
    destruct (parse_keeps r); simpl in H; [|discriminate].
    inversion H; subst. simpl. f_equal. now apply IH.
Qed.

(** X3. The policies [main] hands to the engine. When the [--keep]
    tokens parse, the policies come out sorted by descending age, which
    is what the grouping loop relies on; they are the policies of the
    tokens, one for each token, in another order. *)
Theorem parse_policies_sorted (keep : list string) (policies : list policy) :
  parse_policies keep = Ok policies ->
  descending_age policies /\
  List.length policies = List.length keep /\
  exists parsed, parse_keeps keep = Ok parsed /\ Permutation policies parsed.
Proof.
  unfold parse_policies. destruct (parse_keeps keep) as [ps|] eqn:E; simpl;
    [|discriminate].
  intros [= <-]. unfold sort_policies. split; [|split].
  - apply descending_of_sorted. apply (sort_by_sorted (fun p : policy => - snd p)).
  - rewrite <- (parse_keeps_length _ E). apply Permutation_length, sort_by_perm.
  - exists ps. split; [reflexivity|apply sort_by_perm].
Qed.

Lemma parse_policies_sorted_witness :
  descending_age [(days 30, days 30); (days 7, days 7); (days 1, days 2)] /\
  List.length [(days 30, days 30); (days 7, days 7); (days 1, days 2)]
  = List.length ["1w:7d"; "1d:2d"; "1m:30d"] /\
  exists parsed, parse_keeps ["1w:7d"; "1d:2d"; "1m:30d"] = Ok parsed /\
                 Permutation [(days 30, days 30); (days 7, days 7); (days 1, days 2)]
                             parsed.
Proof.
  apply (@parse_policies_sorted ["1w:7d"; "1d:2d"; "1m:30d"]). reflexivity.
Defined.

(* ================================================================== *)
(** * Further properties of the retention engine *)

Lemma delete_requests_live (a : args) (ids : list Z) (w : world) :
  dryrun a = false -> delete_requests a ids w = w ++ map DeleteSnapshot ids.
Proof.
  intros H. unfold delete_requests. revert w.
  induction ids as [|i r IH]; simpl; intros w; [now rewrite app_nil_r|].
  rewrite IH. unfold api. rewrite H. now rewrite <- app_assoc.
Qed.

(** The requests of the retention pass, whether or not identifiers
    repeat: deletions of snapshots of the list. *)
Lemma engine_requests (a : args) (snapshots : list snapshot) (policies : list policy)
    (now : Z) (w : world) (l' survivors : list snapshot) (w' : world) :
  apply_retention_policies a snapshots policies now w = Ok (l', survivors, w') ->
  exists deleted,
    w' = delete_requests a (map id deleted) w /\
    forall x, In x deleted -> In x l'.
Proof.
  unfold apply_retention_policies.
  destruct (group_by_policy_spec policies now (sort_by created_at snapshots))
    as (groups & E & Hg).
  rewrite E, thin_all_spec by (eapply grouped_annotated; eauto).
  destruct (del_many (map id (doomed_all groups)) (index_by_id snapshots));
    simpl; [|discriminate].
  intros [= <- <- <-]. exists (doomed_all groups). split; [reflexivity|].
  intros x. apply (doomed_all_incl Hg).
Qed.

(** X5. Deleted or surviving. With unique identifiers and requests
    really sent, the retention pass sends exactly one delete request for
    each snapshot of the list that is not among the survivors, none for a
    survivor, and nothing else. *)
Theorem retention_requests (a : args) (snapshots : list snapshot)
    (policies : list policy) (now : Z) (w : world) :
  unique_ids snapshots ->
  dryrun a = false ->
  exists l' survivors deleted,
    apply_retention_policies a snapshots policies now w
    = Ok (l', survivors, w ++ map DeleteSnapshot deleted) /\
    NoDup deleted /\
    (forall i, In i deleted -> In i (map id snapshots)) /\
    (forall s, In s snapshots ->
               (In (id s) deleted <-> ~ In (id s) (map id survivors)) /\
               (~ In (id s) deleted <-> In (annotate now s) survivors)).
Proof.
  intros Hu Hlive.
  destruct (group_by_policy_spec policies now (sort_by created_at snapshots))
    as (groups & E & Hg).
  pose proof (unique_ids_prepared now Hu) as Hu'.
  exists (map (annotate now) (sort_by created_at snapshots)).
  exists (filter (survives policies now (sort_by created_at snapshots))
                 (map (annotate now) (sort_by created_at snapshots))).
  exists (map id (doomed_all groups)).
  split; [|split; [|split]].
  - rewrite engine_spec by exact Hu. rewrite E. simpl snd.
    now rewrite delete_requests_live.
  - apply (doomed_all_unique Hg Hu').
  - intros i Hi. apply in_map_iff in Hi as (x & <- & Hx).
    apply (doomed_all_incl Hg) in Hx. apply (in_map id) in Hx.
    rewrite map_id_annotate in Hx.
    eapply Permutation_in; [|exact Hx]. apply Permutation_map, sort_by_perm.
  - intros s Hs.
    assert (Hs' : In (annotate now s)
                    (map (annotate now) (sort_by created_at snapshots)))
      by (apply in_map; now apply in_sort_by).
    assert (Hsurv : In (annotate now s)
                      (filter (survives policies now (sort_by created_at snapshots))
                              (map (annotate now) (sort_by created_at snapshots)))
                    <-> ~ In (id s) (map id (doomed_all groups))).
    { rewrite filter_In. unfold survives. rewrite E. simpl snd.
      rewrite negb_true_iff, memZ_not_In. simpl. tauto. }
    split; [|rewrite Hsurv; tauto].
    split.
    + intros Hd Hin. apply in_map_iff in Hin as (x & Ex & Hx).
      assert (x = annotate now s).
      { apply filter_In in Hx as Hx'. destruct Hx' as [Hx' _].
        exact (@NoDup_map_eq _ _ id _ x (annotate now s) Hu' Hx' Hs' Ex). }
      subst x. apply Hsurv in Hx. tauto.
    + intros Hn.
      destruct (memZ (id s) (map id (doomed_all groups))) eqn:Em;
        [now apply memZ_In|].
      apply memZ_not_In in Em. apply Hsurv in Em. destruct Hn.
      apply (in_map id) in Em. exact Em.
Qed.

Lemma retention_requests_witness :
  exists l' survivors deleted,
    apply_retention_policies live
      [snap 1 (days 0); snap 2 (days 1); snap 3 (days 2); snap 4 (days 9)]
      [(days 5, days 7)] (days 10) []
    = Ok (l', survivors, [] ++ map DeleteSnapshot deleted) /\
    NoDup deleted /\
    (forall i, In i deleted ->
               In i (map id [snap 1 (days 0); snap 2 (days 1); snap 3 (days 2);
                             snap 4 (days 9)])) /\
    (forall s, In s [snap 1 (days 0); snap 2 (days 1); snap 3 (days 2);
                     snap 4 (days 9)] ->
               (In (id s) deleted <-> ~ In (id s) (map id survivors)) /\
               (~ In (id s) deleted <-> In (annotate (days 10) s) survivors)).
Proof.
  apply (@retention_requests live
           [snap 1 (days 0); snap 2 (days 1); snap 3 (days 2); snap 4 (days 9)]
           [(days 5, days 7)] (days 10) []); [unique_ids_tac|reflexivity].
Defined.

(** X6. The oldest of a tier survives. Unless the policy's interval is
    zero, the oldest snapshot assigned to a policy is among the
    survivors. *)
Theorem oldest_of_tier_survives (a : args) (snapshots : list snapshot)
    (policies : list policy) (now : Z) (w : world) (k : policy)
    (s : snapshot) (rest : list snapshot) :
  unique_ids snapshots ->
  fst k <> 0 ->
  filter (in_tier policies now k)
         (map (annotate now) (sort_by created_at snapshots)) = s :: rest ->
  exists l' survivors w',
    apply_retention_policies a snapshots policies now w = Ok (l', survivors, w') /\
    In s survivors.
Proof.
  intros Hu Hk Hg. do 3 eexists. split; [now apply engine_spec|].
  assert (Hin : In s (filter (in_tier policies now k)
                        (filter (survives policies now (sort_by created_at snapshots))
                                (map (annotate now) (sort_by created_at snapshots))))).
  { rewrite (survivors_in_tier policies now Hu), Hg. simpl.
    unfold too_close. apply Z.eqb_neq in Hk. rewrite Hk. simpl. now left. }
  now apply filter_In in Hin.
Qed.

Lemma oldest_of_tier_survives_witness :
  exists l' survivors w',
    apply_retention_policies live
      [snap 2 (days 1); snap 1 (days 0); snap 4 (days 9)]
      [(days 5, days 7)] (days 10) [] = Ok (l', survivors, w') /\
    In (annotate (days 10) (snap 1 (days 0))) survivors.
Proof.
  apply (@oldest_of_tier_survives live
           [snap 2 (days 1); snap 1 (days 0); snap 4 (days 9)]
           [(days 5, days 7)] (days 10) [] (days 5, days 7)
           (annotate (days 10) (snap 1 (days 0)))
           [annotate (days 10) (snap 2 (days 1))]).
  - unique_ids_tac.
  - discriminate.
  - reflexivity.
Defined.

Lemma kept_within (interval t : Z) (g : list snapshot) :
  (forall x, In x g -> created_at x - t < interval) ->
  kept interval (Some t) g = [].
Proof.
  induction g as [|x r IH]; simpl; intros H; [reflexivity|].
  unfold too_close.
  assert (E : (created_at x - t <? interval) = true)
    by (apply Z.ltb_lt, H; now left).
  rewrite E, orb_true_r. apply IH. auto.
Qed.

(** X7. An interval wider than the tier. When every snapshot assigned
    to a policy is less than the policy's interval younger than the
    oldest of them, that oldest one is the only survivor assigned to the
    policy. *)
Theorem wide_interval_keeps_oldest (a : args) (snapshots : list snapshot)
    (policies : list policy) (now : Z) (w : world) (k : policy)
    (s : snapshot) (rest : list snapshot) :
  unique_ids snapshots ->
  fst k <> 0 ->
  filter (in_tier policies now k)
         (map (annotate now) (sort_by created_at snapshots)) = s :: rest ->
  (forall x, In x rest -> created_at x - created_at s < fst k) ->
  exists l' survivors w',
    apply_retention_policies a snapshots policies now w = Ok (l', survivors, w') /\
    filter (in_tier policies now k) survivors = [s].
Proof.
  intros Hu Hk Hg Hrest. do 3 eexists. split; [now apply engine_spec|].
  rewrite (survivors_in_tier policies now Hu), Hg. simpl.
  unfold too_close. apply Z.eqb_neq in Hk. rewrite Hk. simpl.
  now rewrite kept_within.
Qed.

Lemma wide_interval_keeps_oldest_witness :
  exists l' survivors w',
    apply_retention_policies live
      [snap 2 (days 1); snap 1 (days 0); snap 3 (days 2); snap 4 (days 9)]
      [(days 30, days 7)] (days 10) [] = Ok (l', survivors, w') /\
    filter (in_tier [(days 30, days 7)] (days 10) (days 30, days 7)) survivors
    = [annotate (days 10) (snap 1 (days 0))].
Proof.
  apply (@wide_interval_keeps_oldest live
           [snap 2 (days 1); snap 1 (days 0); snap 3 (days 2); snap 4 (days 9)]
           [(days 30, days 7)] (days 10) [] (days 30, days 7)
           (annotate (days 10) (snap 1 (days 0)))
           [annotate (days 10) (snap 2 (days 1)); annotate (days 10) (snap 3 (days 2))]).
  - unique_ids_tac.
  - discriminate.
  - reflexivity.
  - intros x [<-|[<-|[]]]; reflexivity.
Defined.

(** X8. Nothing old enough. When no snapshot has reached the age of
    any policy (in particular, without policies), every snapshot
    survives, the survivors are the list sorted and annotated, and no
    request is sent. *)
Theorem young_snapshots_all_survive (a : args) (snapshots : list snapshot)
    (policies : list policy) (now : Z) (w : world) :
  unique_ids snapshots ->
  (forall s q, In s snapshots -> In q policies -> now - created_at s < snd q) ->
  apply_retention_policies a snapshots policies now w
  = Ok (map (annotate now) (sort_by created_at snapshots),
        map (annotate now) (sort_by created_at snapshots), w).
Proof.
  intros Hu Hyoung. rewrite engine_spec by exact Hu.
  destruct (group_by_policy_spec policies now (sort_by created_at snapshots))
    as (groups & E & Hg).
  unfold survives. rewrite E. simpl snd.
  assert (Hnone : doomed_all groups = []).
  { apply no_element. intros x Hx.
    pose proof (doomed_all_incl Hg _ Hx) as Hin.
    apply (doomed_all_In Hg) in Hx as (k & Hk & _).
    apply in_map_iff in Hin as (s0 & <- & Hs0). apply in_sort_by in Hs0.
    apply first_policy_spec in Hk as (pre & post & Ep & Hk & _).
    assert (Hq : In k policies) by (rewrite Ep; apply in_or_app; right; now left).
    specialize (Hyoung s0 k Hs0 Hq). simpl in Hk. lia. }
  rewrite Hnone. simpl. now rewrite filter_all.
Qed.

Lemma young_snapshots_all_survive_witness :
  apply_retention_policies live [snap 2 (days 8); snap 1 (days 5)]
    [(days 7, days 7)] (days 10) []
  = Ok (map (annotate (days 10)) (sort_by created_at [snap 2 (days 8); snap 1 (days 5)]),
        map (annotate (days 10)) (sort_by created_at [snap 2 (days 8); snap 1 (days 5)]),
        []).
Proof.
  apply (@young_snapshots_all_survive live [snap 2 (days 8); snap 1 (days 5)]
           [(days 7, days 7)] (days 10) []).
  - unique_ids_tac.
  - intros s q [<-|[<-|[]]] [<-|[]]; reflexivity.
Defined.

Section SortUnique.
Variable A : Type.
Variable key : A -> Z.

Lemma sorted_perm_unique (l m : list A) :
  StronglySorted (fun x y => key x <= key y) l ->
  StronglySorted (fun x y => key x <= key y) m ->
  NoDup (map key l) ->
  Permutation l m ->
  l = m.
Proof.
  revert m. induction l as [|x l IH]; intros m Hl Hm Hnd Hp.
  - apply Permutation_nil in Hp. now subst.
  - destruct m as [|y m]; [apply Permutation_sym, Permutation_nil in Hp; discriminate|].
    inversion Hl as [|? ? Hl' Hx]; subst. inversion Hm as [|? ? Hm' Hy]; subst.
    simpl in Hnd. inversion Hnd as [|? ? Hkx Hnd']; subst.
    rewrite Forall_forall in Hx, Hy.
    assert (x = y).
    { assert (Hyl : In y (x :: l))
        by (eapply Permutation_in; [symmetry; exact Hp|now left]).
      assert (Hxm : In x (y :: m))
        by (eapply Permutation_in; [exact Hp|now left]).
      destruct Hyl as [->|Hyl]; [reflexivity|].
      destruct Hxm as [->|Hxm]; [reflexivity|].
      exfalso. apply Hkx.
      pose proof (Hx y Hyl). pose proof (Hy x Hxm).
      replace (key x) with (key y) by lia. now apply in_map. }
    subst y. f_equal. apply IH; auto. eapply Permutation_cons_inv; eauto.
Qed.

Lemma sort_by_perm_unique (l m : list A) :
  NoDup (map key l) -> Permutation l m -> sort_by key l = sort_by key m.
Proof.
  intros Hnd Hp. apply sorted_perm_unique.
  - apply sort_by_sorted.
  - apply sort_by_sorted.
  - eapply Permutation_NoDup; [|exact Hnd].
    apply Permutation_map. symmetry. apply sort_by_perm.
  - rewrite (sort_by_perm key l), (sort_by_perm key m). exact Hp.
Qed.
End SortUnique.

(** X9. The order of the input does not matter. On snapshots with
    unique identifiers and pairwise different creation times, the
    retention pass gives the same result, requests included, for any two
    orders of the same list. *)
Theorem retention_order_independent (a : args) (l1 l2 : list snapshot)
    (policies : list policy) (now : Z) (w : world) :
  unique_ids l1 ->
  NoDup (map created_at l1) ->
  Permutation l1 l2 ->
  apply_retention_policies a l1 policies now w
  = apply_retention_policies a l2 policies now w.
Proof.
  intros Hu Hnd Hp.
  rewrite !engine_spec by (auto; eapply unique_ids_perm; eauto).
  now rewrite (sort_by_perm_unique created_at Hnd Hp).
Qed.

Lemma retention_order_independent_witness :
  apply_retention_policies live [snap 1 (days 0); snap 2 (days 1); snap 3 (days 9)]
    [(days 5, days 7)] (days 10) []
  = apply_retention_policies live [snap 3 (days 9); snap 1 (days 0); snap 2 (days 1)]
      [(days 5, days 7)] (days 10) [].
Proof.
  apply (@retention_order_independent live
           [snap 1 (days 0); snap 2 (days 1); snap 3 (days 9)]
           [snap 3 (days 9); snap 1 (days 0); snap 2 (days 1)]).
  - unique_ids_tac.
  - simpl. repeat (constructor; [simpl; intuition discriminate|]). constructor.
  - apply Permutation_sym. apply (Permutation_cons_app [_; _] []). reflexivity.
Defined.

(* ================================================================== *)
(** * Further properties of process_droplet *)

(** X10. Transfers requested for a snapshot. With requests really
    sent, [ensure_snapshot_regions] sends one transfer request for each
    wanted region the snapshot is not in, once each even when the region
    is wanted twice, and none for a region the snapshot is in. *)
Theorem ensure_snapshot_regions_requests (e : env) (a : args) (s : snapshot)
    (wanted : list string) (w : world) :
  env_ok e ->
  dryrun a = false ->
  exists m,
    ensure_snapshot_regions e a s wanted w
    = w ++ map (TransferSnapshot (id s)) m /\
    NoDup m /\
    forall r, In r m <-> In r wanted /\ ~ In r (regions s).
Proof.
  intros He Hlive. exists (missing_regions e s wanted).
  rewrite ensure_snapshot_regions_spec, Hlive. split; [reflexivity|].
  unfold missing_regions. split; [apply He|].
  intros r. rewrite (proj2 (He _) r), filter_In, negb_true_iff.
  pose proof (mem_string_In r (regions s)) as Hm.
  destruct (mem_string r (regions s)); intuition congruence.
Qed.

Lemma ensure_snapshot_regions_requests_witness :
  exists m,
    ensure_snapshot_regions sample_env {| dryrun := false; region := [] |}
      {| id := 7; name := "web"; created_at := 0; regions := ["nyc1"];
         created_dt := None; age := None |} ["sfo2"; "nyc1"; "sfo2"] []
    = [] ++ map (TransferSnapshot 7) m /\
    NoDup m /\
    forall r, In r m <-> In r ["sfo2"; "nyc1"; "sfo2"] /\ ~ In r ["nyc1"].
Proof.
  apply (@ensure_snapshot_regions_requests sample_env
           {| dryrun := false; region := [] |}
           {| id := 7; name := "web"; created_at := 0; regions := ["nyc1"];
              created_dt := None; age := None |} ["sfo2"; "nyc1"; "sfo2"] []);
    [apply sample_env_ok|reflexivity].
Defined.

Lemma delete_requests_form (a : args) (ids : list Z) (w : world) :
  delete_requests a ids w = w ++ (if dryrun a then [] else map DeleteSnapshot ids).
Proof.
  destruct (dryrun a) eqn:E.
  - rewrite delete_requests_dryrun by exact E. now rewrite app_nil_r.
  - now apply delete_requests_live.
Qed.

(** The requests of the loop over the survivors. *)
Lemma sync_all_requests (e : env) (a : args) (l : list snapshot) (w : world) :
  env_ok e ->
  exists reqs,
    snd (sync_all e a l w) = w ++ reqs /\
    (dryrun a = true -> reqs = []) /\
    Forall (fun r => exists s rg, r = TransferSnapshot (id s) rg /\
                                  In s l /\ In rg (region a)) reqs.
Proof.
  intros He. revert w. induction l as [|s rest IH]; intros w; simpl.
  - exists []. now rewrite app_nil_r.
  - destruct (IH (ensure_snapshot_regions e a s (region a) w)) as (reqs & E & Hd & Hf).
    destruct (sync_all e a rest (ensure_snapshot_regions e a s (region a) w))
      as [rest' w'] eqn:Es. simpl in *. subst w'.
    rewrite ensure_snapshot_regions_spec.
    exists ((if dryrun a then []
             else map (TransferSnapshot (id s)) (missing_regions e s (region a)))
            ++ reqs).
    split; [|split].
    + destruct (dryrun a); simpl; [reflexivity|now rewrite <- app_assoc].
    + intros H. rewrite H. simpl. auto.
    + apply Forall_app. split.
      * destruct (dryrun a); [constructor|].
        apply Forall_forall. intros r Hr. apply in_map_iff in Hr as (rg & <- & Hrg).
        exists s, rg. split; [reflexivity|]. split; [now left|].
        unfold missing_regions in Hrg. apply (proj1 (proj2 (He _) rg)) in Hrg.
        now apply filter_In in Hrg.
      * eapply Forall_impl; [|exact Hf]. intros r (s' & rg & -> & Hs' & Hrg).
        exists s', rg. auto.
Qed.

(** [process_droplet] step by step, whether or not identifiers repeat. *)
Lemma process_droplet_returns (e : env) (a : args) (d : droplet)
    (snapshots : list snapshot) (policies : list policy) (min_age : Z)
    (prefix : string) (now : Z) (w : world)
    (survivors : list snapshot) (taken : option string) (w' : world) :
  process_droplet e a d snapshots policies min_age prefix now w
  = Ok (survivors, taken, w') ->
  exists kept_by_engine w1,
    apply_retention_policies a snapshots policies now w
    = Ok (map (annotate now) (sort_by created_at snapshots), kept_by_engine, w1) /\
    survivors = synced e a kept_by_engine /\
    taken = (if due_now (sort_by created_at snapshots) min_age now
             then Some (strftime_name prefix now) else None) /\
    exists w2,
      w2 = match region a with
           | [] => w1
           | _ :: _ => snd (sync_all e a kept_by_engine w1)
           end /\
      w' = match taken with
           | Some n => api a (CreateSnapshot (droplet_id d) n) w2
           | None => w2
           end.
Proof.
  unfold process_droplet.
  destruct (apply_retention_policies a snapshots policies now w)
    as [[[l' s0] w1]|x] eqn:E; simpl; [|discriminate].
  pose proof (engine_returns _ _ _ _ _ E) as (-> & _).
  rewrite snapshot_due_annotated. simpl.
  assert (Hs : fst (match region a with
                    | [] => (s0, w1)
                    | _ :: _ => sync_all e a s0 w1
                    end) = synced e a s0).
  { unfold synced. destruct (region a); [reflexivity|]. apply sync_all_spec. }
  destruct (match region a with
            | [] => (s0, w1)
            | _ :: _ => sync_all e a s0 w1
            end) as [s1 w2] eqn:Em.
  simpl in Hs. subst s1.
  assert (Hw : w2 = match region a with
                    | [] => w1
                    | _ :: _ => snd (sync_all e a s0 w1)
                    end).
  { destruct (region a); [now inversion Em|now rewrite Em]. }
  intros H. exists s0, w1. split; [reflexivity|].
  destruct (due_now (sort_by created_at snapshots) min_age now);
    injection H as <- <- <-; repeat split; exists w2; auto.
Qed.

(** Where the requests of [process_droplet] come from: they come after
    those sent before; there is none under [dryrun]; a deletion or a
    transfer concerns a snapshot of the list handed over, a transfer goes
    to a wanted region, and a snapshot is requested only for the droplet,
    under the name returned. *)
Lemma process_droplet_trace (e : env) (a : args) (d : droplet)
    (snapshots : list snapshot) (policies : list policy) (min_age : Z)
    (prefix : string) (now : Z) (w : world)
    (survivors : list snapshot) (taken : option string) (w' : world) :
  env_ok e ->
  process_droplet e a d snapshots policies min_age prefix now w
  = Ok (survivors, taken, w') ->
  exists reqs,
    w' = w ++ reqs /\
    (dryrun a = true -> reqs = []) /\
    Forall (request_from a d snapshots taken) reqs /\
    (dryrun a = false -> forall n, taken = Some n ->
                         In (CreateSnapshot (droplet_id d) n) reqs).
Proof.
  intros He H.
  apply process_droplet_returns in H
    as (s0 & w1 & E & -> & Htaken & w2 & Hw2 & ->).
  destruct (engine_requests _ _ _ _ _ E) as (deleted & -> & Hdel).
  pose proof (engine_returns _ _ _ _ _ E) as (_ & Hsurv & _).
  rewrite delete_requests_form in Hw2.
  set (dels := if dryrun a then [] else map DeleteSnapshot (map id deleted)) in *.
  assert (Hids : forall x, In x (map (annotate now) (sort_by created_at snapshots)) ->
                           In (id x) (map id snapshots)).
  { intros x Hx. apply in_map_iff in Hx as (x0 & <- & Hx0).
    apply in_sort_by in Hx0. simpl. now apply in_map. }
  assert (Hdels : Forall (request_from a d snapshots taken) dels).
  { unfold dels. destruct (dryrun a); [constructor|].
    apply Forall_forall. intros r Hr. apply in_map_iff in Hr as (i & <- & Hi).
    apply in_map_iff in Hi as (x & <- & Hx). simpl. auto. }
  destruct (sync_all_requests a s0 (w ++ dels) He) as (trs & Et & Hdt & Hft).
  assert (Htrs : Forall (request_from a d snapshots taken) trs).
  { eapply Forall_impl; [|exact Hft]. intros r (s & rg & -> & Hs & Hrg).
    simpl. split; [|exact Hrg]. destruct (Hsurv s Hs) as (x0 & Hx0 & ->).
    simpl. now apply in_map. }
  set (mid := match region a with [] => [] | _ :: _ => trs end).
  assert (Ew2 : w2 = w ++ dels ++ mid).
  { unfold mid. rewrite Hw2. destruct (region a); [now rewrite app_nil_r|].
    rewrite Et. now rewrite app_assoc. }
  assert (Hmid : Forall (request_from a d snapshots taken) (dels ++ mid)).
  { apply Forall_app. split; [exact Hdels|]. unfold mid.
    destruct (region a); [constructor|exact Htrs]. }
  assert (Hdry : dryrun a = true -> dels ++ mid = []).
  { intros Hd. unfold dels, mid. rewrite Hd. simpl.
    destruct (region a); [reflexivity|auto]. }
  clear Hw2. subst w2. destruct taken as [n|].
  - unfold api. destruct (dryrun a) eqn:Ed.
    + exists (dels ++ mid). repeat split; auto. discriminate.
    + exists ((dels ++ mid) ++ [CreateSnapshot (droplet_id d) n]).
      split; [now rewrite <- !app_assoc|]. split; [discriminate|]. split.
      * apply Forall_app. split; [exact Hmid|]. repeat constructor.
      * intros _ n' [= <-]. apply in_or_app. right. now left.
  - exists (dels ++ mid). repeat split; auto. discriminate.
Qed.

(** X11. Regions after [process_droplet]. Whatever the list, every
    survivor returned is in every wanted region, comes from a snapshot of
    the list handed over, and is still in every region that snapshot was
    in. *)
Theorem survivors_hold_wanted_regions (e : env) (a : args) (d : droplet)
    (snapshots : list snapshot) (policies : list policy) (min_age : Z)
    (prefix : string) (now : Z) (w : world)
    (survivors : list snapshot) (taken : option string) (w' : world) :
  env_ok e ->
  process_droplet e a d snapshots policies min_age prefix now w
  = Ok (survivors, taken, w') ->
  forall s, In s survivors ->
    (forall r, In r (region a) -> In r (regions s)) /\
    exists s0, In s0 snapshots /\ same_identity s0 s /\
               incl (regions s0) (regions s).
Proof.
  intros He H s Hs.
  apply process_droplet_returns in H as (s0 & w1 & E & -> & _).
  pose proof (engine_returns _ _ _ _ _ E) as (_ & Hsurv & _).
  unfold synced in Hs. destruct (region a) as [|r0 rs] eqn:Er.
  - split; [intros r []|]. destruct (Hsurv s Hs) as (x & Hx & ->).
    exists x. repeat split; auto. intros r Hr. exact Hr.
  - apply in_map_iff in Hs as (y & <- & Hy). split.
    + intros r Hr. simpl. apply He. apply in_or_app. right. now rewrite Er.
    + destruct (Hsurv y Hy) as (x & Hx & ->). exists x. repeat split; auto.
      intros r Hr. simpl. apply He. apply in_or_app. now left.
Qed.

Lemma survivors_hold_wanted_regions_witness :
  (forall r, In r ["nyc1"; "sfo2"] ->
             In r (regions (grow_regions sample_env
                              {| dryrun := true; region := ["nyc1"; "sfo2"] |}
                              (annotate (days 10) (snap 1 (days 0)))))) /\
  exists s0, In s0 [snap 1 (days 0)] /\
             same_identity s0 (grow_regions sample_env
                                 {| dryrun := true; region := ["nyc1"; "sfo2"] |}
                                 (annotate (days 10) (snap 1 (days 0)))) /\
             incl (regions s0)
                  (regions (grow_regions sample_env
                              {| dryrun := true; region := ["nyc1"; "sfo2"] |}
                              (annotate (days 10) (snap 1 (days 0))))).
Proof.
  apply (@survivors_hold_wanted_regions sample_env
           {| dryrun := true; region := ["nyc1"; "sfo2"] |} simulated
           [snap 1 (days 0)] [] (days 1) "web-autosnapshot-" (days 10) []
           [grow_regions sample_env {| dryrun := true; region := ["nyc1"; "sfo2"] |}
              (annotate (days 10) (snap 1 (days 0)))]
           (Some "web-autosnapshot-19700111T000000Z") []);
    [apply sample_env_ok|vm_compute; reflexivity|now left].
Defined.

(** The arguments only bear on the requests: two calls of the retention
    pass on the same list return the same lists or raise the same
    exception. *)
Lemma engine_any_args (a1 a2 : args) (snapshots : list snapshot)
    (policies : list policy) (now : Z) (w1 w2 : world) :
  match apply_retention_policies a1 snapshots policies now w1,
        apply_retention_policies a2 snapshots policies now w2 with
  | Ok (l1, s1, _), Ok (l2, s2, _) => l1 = l2 /\ s1 = s2
  | Raise x, Raise y => x = y
  | _, _ => False
  end.
Proof.
  unfold apply_retention_policies.
  destruct (group_by_policy_spec policies now (sort_by created_at snapshots))
    as (groups & E & Hg).
  rewrite E, !thin_all_spec by (eapply grouped_annotated; eauto).
  destruct (del_many (map id (doomed_all groups)) (index_by_id snapshots));
    simpl; auto.
Qed.

Lemma process_droplet_raises (e : env) (a : args) (d : droplet)
    (snapshots : list snapshot) (policies : list policy) (min_age : Z)
    (prefix : string) (now : Z) (w : world) (x : exn) :
  process_droplet e a d snapshots policies min_age prefix now w = Raise x ->
  apply_retention_policies a snapshots policies now w = Raise x.
Proof.
  unfold process_droplet.
  destruct (apply_retention_policies a snapshots policies now w)
    as [[[l' s0] w1]|y] eqn:E; simpl; [|now intros [= ->]].
  pose proof (engine_returns _ _ _ _ _ E) as (-> & _).
  rewrite snapshot_due_annotated. simpl.
  destruct (match region a with
            | [] => (s0, w1)
            | _ :: _ => sync_all e a s0 w1
            end) as [s1 w2].
  destruct (due_now (sort_by created_at snapshots) min_age now); discriminate.
Qed.

(** X12. A dry run tells what the live run does. On the same list,
    with the same wanted regions, [process_droplet] under [dryrun]
    returns the same survivors and the same snapshot name as without it,
    or raises the same exception; under [dryrun] it sends nothing. *)
Theorem dryrun_predicts_live (e : env) (d : droplet) (snapshots : list snapshot)
    (policies : list policy) (min_age : Z) (prefix : string) (now : Z)
    (w : world) (wanted : list string) :
  match process_droplet e {| dryrun := true; region := wanted |} d snapshots
                        policies min_age prefix now w,
        process_droplet e {| dryrun := false; region := wanted |} d snapshots
                        policies min_age prefix now w with
  | Ok (s1, t1, w1), Ok (s2, t2, _) => s1 = s2 /\ t1 = t2 /\ w1 = w
  | Raise x, Raise y => x = y
  | _, _ => False
  end.
Proof.
  set (dry := {| dryrun := true; region := wanted |}).
  set (wet := {| dryrun := false; region := wanted |}).
  pose proof (engine_any_args dry wet snapshots policies now w w) as Hany.
  destruct (process_droplet e dry d snapshots policies min_age prefix now w)
    as [[[s1 t1] w1]|x] eqn:E1;
  destruct (process_droplet e wet d snapshots policies min_age prefix now w)
    as [[[s2 t2] w2]|y] eqn:E2.
  - apply process_droplet_returns in E1
      as (k1 & u1 & A1 & -> & -> & v1 & Hv1 & ->).
    apply process_droplet_returns in E2
      as (k2 & u2 & A2 & -> & -> & v2 & Hv2 & ->).
    rewrite A1, A2 in Hany. destruct Hany as [_ <-].
    split; [reflexivity|]. split; [reflexivity|].
    destruct (engine_requests _ _ _ _ _ A1) as (deleted & -> & _).
    rewrite delete_requests_dryrun in Hv1 by reflexivity.
    assert (v1 = w).
    { rewrite Hv1. destruct (region dry); [reflexivity|].
      now apply sync_all_spec. }
    subst v1.
    now destruct (due_now (sort_by created_at snapshots) min_age now).
  - apply process_droplet_returns in E1 as (k1 & u1 & A1 & _).
    apply process_droplet_raises in E2. now rewrite A1, E2 in Hany.
  - apply process_droplet_returns in E2 as (k2 & u2 & A2 & _).
    apply process_droplet_raises in E1. now rewrite A2, E1 in Hany.
  - apply process_droplet_raises in E1, E2. now rewrite E1, E2 in Hany.
Qed.

Lemma string_length_app (p q : string) :
  String.length (p ++ q) = (String.length p + String.length q)%nat.
Proof. induction p as [|c p IH]; simpl; [reflexivity|now rewrite IH]. Qed.

Lemma prefix_app (p q : string) : String.prefix p (p ++ q) = true.
Proof.
  induction p as [|c p IH]; simpl; [now destruct q|].
  destruct (ascii_dec c c); [exact IH|congruence].
Qed.

Lemma contains_of_prefix (p s : string) :
  String.prefix p s = true -> contains p s = true.
Proof. intros H. destruct s; cbn [contains]; rewrite H; reflexivity. Qed.

Lemma stamp_length (now : Z) :
  1000 <= year_of now <= 9999 -> String.length (stamp now) = 16%nat.
Proof.
  unfold stamp, year_of, year_text. destruct (civil_of_days _) as [[y m] d].
  simpl fst. intros Hy.
  destruct (Z.ltb_spec y 10); [lia|].
  destruct (Z.ltb_spec y 100); [lia|].
  destruct (Z.ltb_spec y 1000); [lia|reflexivity].
Qed.

(** X13. The names given are the names looked for. When
    [process_droplet] takes a snapshot, for a prefix without [%], the
    name starts with the prefix, and the filter of [main] on the
    snapshots of the droplet, with the same prefix, keeps every snapshot
    of that name: the next run finds the snapshot. When the year of the
    reference time has four digits, the name is the prefix followed by
    sixteen characters. *)
Theorem taken_name_is_found (e : env) (a : args) (d : droplet)
    (snapshots : list snapshot) (policies : list policy) (min_age : Z)
    (prefix : string) (now : Z) (w : world)
    (survivors : list snapshot) (n : string) (w' : world) :
  count_char "%"%char prefix = 0%nat ->
  process_droplet e a d snapshots policies min_age prefix now w
  = Ok (survivors, Some n, w') ->
  String.prefix prefix n = true /\
  (1000 <= year_of now <= 9999 ->
   String.length n = (String.length prefix + 16)%nat) /\
  forall listing s, In s listing -> name s = n ->
                    In s (autosnapshots prefix listing).
Proof.
  intros _ H. apply process_droplet_returns in H as (_ & _ & _ & _ & Hn & _).
  destruct (due_now (sort_by created_at snapshots) min_age now); [|discriminate].
  injection Hn as ->. unfold strftime_name. split; [apply prefix_app|].
  split; [intros Hy; now rewrite string_length_app, stamp_length|].
  intros listing s Hs Hname. apply filter_In. split; [exact Hs|].
  rewrite Hname. apply contains_of_prefix, prefix_app.
Qed.

Lemma taken_name_is_found_witness :
  String.prefix "web-autosnapshot-" "web-autosnapshot-19700111T000000Z" = true /\
  String.length "web-autosnapshot-19700111T000000Z"
  = (String.length "web-autosnapshot-" + 16)%nat /\
  forall listing s, In s listing -> name s = "web-autosnapshot-19700111T000000Z" ->
                    In s (autosnapshots "web-autosnapshot-" listing).
Proof.
  destruct (@taken_name_is_found sample_env live simulated
              [snap 1 (days 0); snap 2 (days 1)] [(days 5, days 7)] (days 3)
              "web-autosnapshot-" (days 10) []
              [annotate (days 10) (snap 1 (days 0))]
              "web-autosnapshot-19700111T000000Z"
              [DeleteSnapshot 2; CreateSnapshot 0 "web-autosnapshot-19700111T000000Z"])
    as (H1 & H2 & H3); [reflexivity|vm_compute; reflexivity|].
  split; [exact H1|]. split; [|exact H3].
  apply H2. vm_compute. split; discriminate.
Defined.

(** X14. Only autosnapshots are touched. Whatever the API lists for
    the droplets, when the loop of [main] over them returns, nothing was
    sent under [dryrun], and every deletion or transfer it requested
    concerns a snapshot listed for one of the droplets whose name
    contains the prefix of that droplet; a snapshot is requested only
    for one of the droplets. *)
Theorem only_autosnapshots_touched (e : env) (a : args) (args_prefix : string)
    (droplets : list (droplet * list snapshot)) (policies : list policy)
    (min_age now : Z) (w w' : world) :
  env_ok e ->
  process_droplets e a args_prefix droplets policies min_age now w = Ok w' ->
  exists reqs,
    w' = w ++ reqs /\
    (dryrun a = true -> reqs = []) /\
    forall r, In r reqs ->
      match r with
      | DeleteSnapshot i | TransferSnapshot i _ =>
          exists d listing s,
            In (d, listing) droplets /\ In s listing /\ id s = i /\
            contains (droplet_prefix args_prefix d) (name s) = true
      | CreateSnapshot i _ =>
          exists d listing, In (d, listing) droplets /\ i = droplet_id d
      end.
Proof.
  intros He. revert w. induction droplets as [|[d listing] rest IH]; simpl; intros w H.
  - injection H as <-. exists []. rewrite app_nil_r. repeat split; auto.
    intros r [].
  - unfold process_listing in H.
    destruct (process_droplet e a d (autosnapshots (droplet_prefix args_prefix d) listing)
                policies min_age (droplet_prefix args_prefix d) now w)
      as [[[s1 t1] w1]|x] eqn:E; simpl in H; [|discriminate].
    destruct (process_droplet_trace _ _ _ _ _ _ _ _ He E)
      as (reqs1 & -> & Hd1 & Hf1 & _).
    destruct (IH _ H) as (reqs2 & -> & Hd2 & Hf2).
    exists (reqs1 ++ reqs2). split; [now rewrite app_assoc|]. split.
    + intros Hd. now rewrite Hd1, Hd2.
    + intros r Hr. apply in_app_or in Hr as [Hr|Hr].
      * rewrite Forall_forall in Hf1. specialize (Hf1 r Hr).
        assert (Hauto : forall i,
                   In i (map id (autosnapshots (droplet_prefix args_prefix d) listing)) ->
                   exists d0 listing0 s,
                     In (d0, listing0) ((d, listing) :: rest) /\ In s listing0 /\
                     id s = i /\
                     contains (droplet_prefix args_prefix d0) (name s) = true).
        { intros i Hi. apply in_map_iff in Hi as (s & <- & Hs).
          apply filter_In in Hs as [Hs Hc]. exists d, listing, s.
          repeat split; auto. now left. }
        destruct r as [i|i rg|i n]; simpl in Hf1.
        -- now apply Hauto.
        -- now apply Hauto.
        -- exists d, listing. split; [now left|tauto].
      * specialize (Hf2 r Hr). destruct r as [i|i rg|i n].
        -- destruct Hf2 as (d0 & l0 & s & Hin & Hrest). exists d0, l0, s.
           split; [now right|exact Hrest].
        -- destruct Hf2 as (d0 & l0 & s & Hin & Hrest). exists d0, l0, s.
           split; [now right|exact Hrest].
        -- destruct Hf2 as (d0 & l0 & Hin & Hrest). exists d0, l0.
           split; [now right|exact Hrest].
Qed.

Lemma only_autosnapshots_touched_witness :
  exists reqs,
    [DeleteSnapshot 2] = [] ++ reqs /\
    (false = true -> reqs = []) /\
    forall r, In r reqs ->
      match r with
      | DeleteSnapshot i | TransferSnapshot i _ =>
          exists d listing s,
            In (d, listing)
               [({| droplet_id := 5; droplet_name := "web" |},
                 [snap 1 (days 0); snap 2 (days 1);
                  {| id := 3; name := "manual backup"; created_at := days 2;
                     regions := []; created_dt := None; age := None |}])] /\
            In s listing /\ id s = i /\
            contains (droplet_prefix "$droplet-autosnapshot" d) (name s) = true
      | CreateSnapshot i _ =>
          exists d listing,
            In (d, listing)
               [({| droplet_id := 5; droplet_name := "web" |},
                 [snap 1 (days 0); snap 2 (days 1);
                  {| id := 3; name := "manual backup"; created_at := days 2;
                     regions := []; created_dt := None; age := None |}])] /\
            i = droplet_id d
      end.
Proof.
  apply (@only_autosnapshots_touched sample_env live "$droplet-autosnapshot"
           [({| droplet_id := 5; droplet_name := "web" |},
             [snap 1 (days 0); snap 2 (days 1);
              {| id := 3; name := "manual backup"; created_at := days 2;
                 regions := []; created_dt := None; age := None |}])]
           [(days 5, 0)] (days 30) (days 3) [] [DeleteSnapshot 2]);
    [apply sample_env_ok|vm_compute; reflexivity].
Defined.

(* ================================================================== *)
(** * Further properties of the simulation *)

Lemma sorted_map_same_key (f : snapshot -> snapshot) (l : list snapshot) :
  (forall s, created_at (f s) = created_at s) ->
  sorted_by_created_at l -> sorted_by_created_at (map f l).
Proof.
  intros Hf Hl. unfold sorted_by_created_at.
  rewrite <- (sort_by_fixed created_at Hl).
  rewrite <- (sort_by_map created_at f) by exact Hf.
  apply sort_by_sorted.
Qed.

Lemma sorted_snoc (l : list snapshot) (s : snapshot) :
  sorted_by_created_at l ->
  (forall x, In x l -> created_at x <= created_at s) ->
  sorted_by_created_at (l ++ [s]).
Proof.
  unfold sorted_by_created_at. induction 1 as [|y r Hr IH Hy]; simpl; intros H.
  - repeat constructor.
  - constructor; [apply IH; auto|].
    apply Forall_app. split; [exact Hy|]. repeat constructor. apply H. now left.
Qed.

Lemma synced_sorted (e : env) (a : args) (l : list snapshot) :
  sorted_by_created_at l -> sorted_by_created_at (synced e a l).
Proof.
  intros H. unfold synced. destruct (region a); [exact H|].
  now apply sorted_map_same_key.
Qed.

Lemma synced_retained_In (e : env) (a : args) (policies : list policy) (now : Z)
    (l : list snapshot) (s : snapshot) :
  In s (synced e a (retained policies now l)) ->
  exists s0, In s0 l /\ created_at s = created_at s0 /\ name s = name s0.
Proof.
  intros H.
  assert (Hr : forall x, In x (retained policies now l) ->
                         exists s0, In s0 l /\ created_at x = created_at s0 /\
                                    name x = name s0).
  { intros x Hx. apply filter_In in Hx as [Hx _].
    apply in_map_iff in Hx as (s0 & <- & Hs0). apply in_sort_by in Hs0.
    exists s0. auto. }
  unfold synced in H. destruct (region a); [now apply Hr|].
  apply in_map_iff in H as (x & <- & Hx).
  destruct (Hr x Hx) as (x0 & A & B & C). exists x0. repeat split; assumption.
Qed.

Section LoopShape.
Variable e : env.
Variable a : args.
Variable policies : list policy.
Variables (min_age : Z) (prefix : string) (start interval stop : Z).
Hypothesis Hdry : dryrun a = true.
Hypothesis Hpos : 0 < interval.

Lemma simulate_loop_shape :
  forall fuel now idgen l w final wf,
    sim_inv idgen l ->
    sorted_by_created_at l ->
    (forall s, In s l -> simulated_at prefix start interval stop now s) ->
    (exists j, 0 <= j /\ now = start + j * interval) ->
    simulate_loop fuel e a policies min_age prefix interval stop now idgen l w
    = Some (Ok (final, wf)) ->
    sorted_by_created_at final /\
    unique_ids final /\
    forall s, In s final ->
              tick start interval stop (created_at s) /\
              name s = strftime_name prefix (created_at s).
Proof.
  induction fuel as [|fuel IH]; intros now idgen l w final wf Hinv Hsorted Hall Hclock H;
    [discriminate|].
  cbn [simulate_loop] in H. destruct (Z.ltb_spec now stop) as [Hlt|Hge].
  - rewrite process_droplet_dryrun in H by (auto; apply Hinv).
    destruct (datetime_add now interval) as [t|x] eqn:Et; [|discriminate].
    apply datetime_add_ok in Et. subst t.
    set (kept_now := synced e a (retained policies now l)) in *.
    assert (Hkept : forall s, In s kept_now ->
                              simulated_at prefix start interval stop now s).
    { intros s Hs. apply synced_retained_In in Hs as (s0 & Hs0 & Ec & En).
      destruct (Hall s0 Hs0) as (H1 & H2 & H3). unfold simulated_at.
      rewrite Ec, En. auto. }
    assert (Hks : sorted_by_created_at kept_now).
    { apply synced_sorted. apply (survivors_sorted policies now l). }
    eapply IH; [| | | |exact H].
    + now apply step_inv.
    + unfold record_snapshot.
      destruct (due_now (sort_by created_at l) min_age now); [|exact Hks].
      rewrite truthy_name. apply sorted_snoc; [exact Hks|].
      intros x Hx. destruct (Hkept x Hx) as (Hx1 & _). simpl. lia.
    + intros s Hs.
      assert (Hold : forall x, In x kept_now ->
                       simulated_at prefix start interval stop (now + interval) x).
      { intros x Hx. destruct (Hkept x Hx) as (H1 & H2 & H3).
        unfold simulated_at. repeat split; auto. lia. }
      unfold record_snapshot in Hs.
      destruct (due_now (sort_by created_at l) min_age now); [|now apply Hold].
      rewrite truthy_name in Hs. apply in_app_or in Hs as [Hs|[<-|[]]];
        [now apply Hold|].
      unfold simulated_at. simpl. split; [lia|]. split; [|reflexivity].
      destruct Hclock as (j & Hj & Ej). exists j. auto.
    + destruct Hclock as (j & Hj & Ej). exists (j + 1). split; [lia|]. lia.
  - injection H as <- <-. split; [exact Hsorted|]. split; [apply Hinv|].
    intros s Hs. destruct (Hall s Hs) as (_ & H2 & H3). auto.
Qed.
End LoopShape.

(** X15. The list the simulation prints. For an interval above zero,
    when the simulation ends with a list, the list is sorted by creation
    time, identifiers are unique, and every snapshot was created at one
    of the instants the loop ran at, [start + k * interval] before the
    end time, and is named after that instant. *)
Theorem simulation_final_list (fuel : nat) (e : env) (wanted : list string)
    (policies : list policy) (min_age : Z) (prefix : string)
    (interval duration start : Z) (final : list snapshot) (w : world) :
  0 < interval ->
  simulate fuel e wanted policies min_age prefix interval duration start
  = Some (Ok (final, w)) ->
  sorted_by_created_at final /\
  unique_ids final /\
  forall s, In s final ->
            tick start interval (start + duration) (created_at s) /\
            name s = strftime_name prefix (created_at s).
Proof.
  intros Hpos H. unfold simulate in H.
  destruct (datetime_add start duration) as [stop|x] eqn:Es; [|discriminate].
  apply datetime_add_ok in Es. subst stop.
  eapply simulate_loop_shape with (start := start); [| | | | | |exact H].
  - reflexivity.
  - exact Hpos.
  - split; [constructor|intros s []].
  - constructor.
  - intros s [].
  - exists 0. split; lia.
Qed.

Lemma simulation_final_list_witness :
  exists final,
    simulate 40 sample_env [] [(days 2, days 2)] (days 1) "web-autosnapshot-"
      (hours 12) (days 4) sample_start = Some (Ok (final, [])) /\
    sorted_by_created_at final /\
    unique_ids final /\
    forall s, In s final ->
              tick sample_start (hours 12) (sample_start + days 4) (created_at s) /\
              name s = strftime_name "web-autosnapshot-" (created_at s).
Proof.
  eexists. split; [vm_compute; reflexivity|].
  match goal with
  | |- sorted_by_created_at ?l /\ _ =>
      apply (@simulation_final_list 40 sample_env [] [(days 2, days 2)] (days 1)
               "web-autosnapshot-" (hours 12) (days 4) sample_start l []);
        [reflexivity|vm_compute; reflexivity]
  end.
Defined.

(* ================================================================== *)
(** * Repeated identifiers *)

Lemma dict_del_ok (k : Z) (d d' : list (Z * snapshot)) :
  NoDup (dict_keys d) ->
  dict_del Z.eqb k d = Ok d' ->
  In k (dict_keys d) /\ ~ In k (dict_keys d') /\
  forall i, In i (dict_keys d') -> In i (dict_keys d).
Proof.
  unfold dict_keys. revert d'.
  induction d as [|[k' v'] r IH]; simpl; intros d' Hnd H; [discriminate|].
  inversion Hnd as [|? ? Hk Hr]; subst.
  destruct (Z.eqb_spec k k') as [->|Hne].
  - injection H as <-. auto.
  - destruct (dict_del Z.eqb k r) as [r'|] eqn:E; simpl in H; [|discriminate].
    injection H as <-. destruct (IH r' Hr eq_refl) as (H1 & H2 & H3).
    simpl. split; [auto|]. split; [intros [->|Hin]; tauto|].
    intros i [->|Hi]; auto.
Qed.

Lemma del_many_absent (k : Z) (ks : list Z) (d d' : list (Z * snapshot)) :
  NoDup (dict_keys d) -> ~ In k (dict_keys d) -> del_many ks d = Ok d' ->
  ~ In k ks.
Proof.
  revert d. induction ks as [|k2 r IH]; simpl; intros d Hnd Hk H; [tauto|].
  destruct (dict_del Z.eqb k2 d) as [d2|] eqn:E2; simpl in H; [|discriminate].
  destruct (dict_del_ok _ _ Hnd E2) as (Hk2 & _ & Hsub).
  intros [->|Hin]; [tauto|].
  apply (IH d2); auto.
  eapply dict_del_keys_NoDup; eauto.
Qed.

Lemma del_many_ok (ks : list Z) (d d' : list (Z * snapshot)) :
  NoDup (dict_keys d) -> del_many ks d = Ok d' -> NoDup ks.
Proof.
  revert d. induction ks as [|k r IH]; simpl; intros d Hnd H; [constructor|].
  destruct (dict_del Z.eqb k d) as [d1|] eqn:E; simpl in H; [|discriminate].
  destruct (dict_del_ok _ _ Hnd E) as (_ & Hk & _).
  pose proof (dict_del_keys_NoDup _ _ E Hnd) as Hnd1.
  constructor; [|eapply IH; eauto].
  eapply del_many_absent; eauto.
Qed.

(** X16. When the retention pass raises. Whatever the list, the pass
    raises, and then [KeyError], exactly when two of the snapshots that
    the thinning loops delete have the same identifier: the second
    [del snapshots_by_id[...]] finds the key gone. *)
Theorem retention_raises_on_repeated_deletion (a : args) (snapshots : list snapshot)
    (policies : list policy) (now : Z) (w : world) :
  (exists x, apply_retention_policies a snapshots policies now w = Raise x) <->
  ~ NoDup (map id (doomed_all (snd (group_by_policy policies now
                                     (sort_by created_at snapshots))))).
Proof.
  unfold apply_retention_policies.
  destruct (group_by_policy_spec policies now (sort_by created_at snapshots))
    as (groups & E & Hg).
  rewrite E. simpl snd. rewrite thin_all_spec by (eapply grouped_annotated; eauto).
  destruct (index_by_id_wf snapshots) as [Hnd Hwf].
  destruct (del_many (map id (doomed_all groups)) (index_by_id snapshots))
    as [d|x] eqn:Ed; simpl.
  - split; [intros (x & Hx); discriminate|].
    intros Hn. destruct Hn. eapply del_many_ok; eauto.
  - split; [|eauto]. intros _ Hn.
    rewrite del_many_present in Ed; [discriminate|exact Hn| |exact Hnd].
    intros i Hi. apply in_map_iff in Hi as (s & <- & Hs).
    apply (doomed_all_incl Hg) in Hs. apply in_map_iff in Hs as (s0 & <- & Hs0).
    apply in_sort_by in Hs0. simpl. clear - Hs0.
    unfold index_by_id.
    assert (H : forall acc, In (id s0) (dict_keys acc) \/ In s0 snapshots ->
                In (id s0) (dict_keys (fold_left (fun d s => dict_set Z.eqb (id s) s d)
                                                 snapshots acc))).
    { clear. induction snapshots as [|s r IH]; intros acc Hor.
      - destruct Hor as [H|[]]. exact H.
      - simpl. apply IH. destruct Hor as [H|[->|H]].
        + left. rewrite dict_set_keys.
          destruct (memZ (id s) (dict_keys acc)); [exact H|].
          apply in_or_app. now left.
        + left. rewrite dict_set_keys.
          destruct (memZ (id s0) (dict_keys acc)) eqn:Em; [now apply memZ_In|].
          apply in_or_app. right. now left.
        + now right. }
    apply H. now right.
Qed.

Lemma retention_raises_on_repeated_deletion_witness :
  exists x,
    apply_retention_policies live [snap 1 (days 0); snap 1 (days 1)] [(0, 0)]
      (days 3) [] = Raise x.
Proof.
  apply (proj2 (@retention_raises_on_repeated_deletion live
                  [snap 1 (days 0); snap 1 (days 1)] [(0, 0)] (days 3) [])).
  cbn. intros H. apply NoDup_cons_iff in H as [H _]. apply H. now left.
Defined.

(* ================================================================== *)
(** * Prefixes and tokens *)






Lemma str_split_one (sep : ascii) (s : string) :
  count_char sep s = 0%nat -> str_split sep s = [s].
Proof.
  induction s as [|c r IH]; simpl; [reflexivity|].
  destruct (Ascii.eqb c sep); [discriminate|]. simpl. intros H.
  now rewrite IH.
Qed.

Lemma str_split_two (sep : ascii) (s x y : string) :
  str_split sep s = [x; y] <->
  s = (x ++ String sep y)%string /\
  count_char sep x = 0%nat /\ count_char sep y = 0%nat.
Proof.
  revert x. induction s as [|c r IH]; intros x; simpl.
  - split; [discriminate|]. intros (E & _). now destruct x.
  - destruct (Ascii.eqb_spec c sep) as [->|Hne].
    + split.
      * intros H. injection H as <- Hr.
        pose proof (str_split_length sep r) as Hl. rewrite Hr in Hl. simpl in Hl.
        assert (Hc : count_char sep r = 0%nat) by lia.
        rewrite (str_split_one _ _ Hc) in Hr. injection Hr as <-. auto.
      * intros (E & Hx & Hy). destruct x as [|b x]; simpl in E.
        -- injection E as <-. now rewrite (str_split_one _ _ Hy).
        -- injection E as <- _. simpl in Hx. rewrite Ascii.eqb_refl in Hx.
           discriminate.
    + split.
      * intros H. destruct (str_split sep r) as [|h t] eqn:Er; [discriminate|].
        injection H as <- ->. destruct (proj1 (IH h) eq_refl) as (-> & Hh & Hy).
        simpl. apply Ascii.eqb_neq in Hne. rewrite Hne. auto.
      * intros (E & Hx & Hy). destruct x as [|b x]; simpl in E.
        -- injection E as -> _. congruence.
        -- injection E as <- ->. simpl in Hx.
           destruct (Ascii.eqb c sep); [discriminate|].
           rewrite (proj2 (IH x) (conj eq_refl (conj Hx Hy))). reflexivity.
Qed.

(** X18. A token [INTERVAL:AGE]. A retention or simulation token
    parses to a pair exactly when it is two duration tokens without
    separator, joined by one separator, that parse to the two
    components. *)
Theorem parse_pair_ok (m : message) (token : string) (x y : Z) :
  parse_pair m token = Ok (x, y) <->
  exists i g,
    token = (i ++ String ":"%char g)%string /\
    count_char ":"%char i = 0%nat /\ count_char ":"%char g = 0%nat /\
    parse_interval i = Ok x /\ parse_interval g = Ok y.
Proof.
  unfold parse_pair. split.
  - destruct (str_split ":"%char token) as [|i [|g [|z r]]] eqn:E; try discriminate.
    apply str_split_two in E as (-> & Hi & Hg).
    destruct (parse_interval i) as [x'|] eqn:Ei; simpl; [|discriminate].
    destruct (parse_interval g) as [y'|] eqn:Eg; simpl; [|discriminate].
    intros [= <- <-]. exists i, g. auto.
  - intros (i & g & -> & Hi & Hg & Ei & Eg).
    rewrite (proj2 (str_split_two ":"%char _ i g) (conj eq_refl (conj Hi Hg))).
    now rewrite Ei, Eg.
Qed.

Lemma parse_pair_ok_witness :
  parse_pair KeepForm "1w:7d" = Ok (days 7, days 7).
Proof.
  apply (proj2 (parse_pair_ok KeepForm "1w:7d" (days 7) (days 7))).
  exists "1w", "7d". repeat split; reflexivity.
Defined.

(* ================================================================== *)
(** * Negative intervals *)

Lemma kept_negative (interval : Z) (g : list snapshot) :
  interval < 0 ->
  sorted_by_created_at g ->
  forall last_kept,
    (forall lk s, last_kept = Some lk -> In s g -> lk <= created_at s) ->
    kept interval last_kept g = g.
Proof.
  intros Hneg. unfold sorted_by_created_at.
  induction 1 as [|s r Hr IH Hs]; simpl; intros last_kept Hlast; [reflexivity|].
  assert (E : too_close interval last_kept s = false).
  { unfold too_close. apply orb_false_iff. split; [apply Z.eqb_neq; lia|].
    destruct last_kept as [lk|]; [|reflexivity].
    apply Z.ltb_ge. specialize (Hlast lk s eq_refl (or_introl eq_refl)). lia. }
  rewrite E. f_equal. apply IH. intros lk x [= <-] Hx.
  rewrite Forall_forall in Hs. now apply Hs.
Qed.

(** X19. Negative intervals. The parser accepts a negative magnitude;
    a retention pass whose policies all have an interval below zero
    deletes nothing: every snapshot survives and no request is sent. *)
Theorem negative_intervals_keep_all (a : args) (snapshots : list snapshot)
    (policies : list policy) (now : Z) (w : world) :
  unique_ids snapshots ->
  (forall q, In q policies -> fst q < 0) ->
  apply_retention_policies a snapshots policies now w
  = Ok (map (annotate now) (sort_by created_at snapshots),
        map (annotate now) (sort_by created_at snapshots), w).
Proof.
  intros Hu Hneg. rewrite engine_spec by exact Hu.
  destruct (group_by_policy_spec policies now (sort_by created_at snapshots))
    as (groups & E & Hg).
  unfold survives. rewrite E. simpl snd.
  assert (Hnone : doomed_all groups = []).
  { apply no_element. intros x Hx.
    apply (doomed_all_In Hg) in Hx as (k & Hk & Hx).
    assert (Hq : In k policies).
    { apply first_policy_spec in Hk as (pre & post & -> & _).
      apply in_or_app. right. now left. }
    assert (Hall : kept (fst k) None
                     (filter (in_tier policies now k)
                             (map (annotate now) (sort_by created_at snapshots)))
                   = filter (in_tier policies now k)
                            (map (annotate now) (sort_by created_at snapshots))).
    { apply kept_negative; [now apply Hneg| |discriminate].
      apply (sorted_filter created_at). apply sorted_prepared. }
    pose proof (unique_ids_prepared now Hu) as Hu'.
    assert (Hug : unique_ids (filter (in_tier policies now k)
                     (map (annotate now) (sort_by created_at snapshots))))
      by now apply filter_keeps_distinct.
    pose proof (@kept_filter (fst k) _ Hug None) as Hf. rewrite Hall in Hf.
    pose proof (doomed_incl _ _ _ _ Hx) as Hin.
    assert (Hx' : In x (filter (fun s => negb (memZ (id s)
                     (map id (doomed (fst k) None
                        (filter (in_tier policies now k)
                           (map (annotate now) (sort_by created_at snapshots)))))))
                     (filter (in_tier policies now k)
                        (map (annotate now) (sort_by created_at snapshots)))))
      by (rewrite Hf; exact Hin).
    apply filter_In in Hx' as [_ Hx']. apply negb_true_iff, memZ_not_In in Hx'.
    apply Hx'. now apply in_map. }
  rewrite Hnone. simpl. now rewrite filter_all.
Qed.

Lemma negative_intervals_keep_all_witness :
  apply_retention_policies live [snap 2 (days 1); snap 1 (days 0)]
    [(- days 1, days 2)] (days 10) []
  = Ok (map (annotate (days 10)) (sort_by created_at [snap 2 (days 1); snap 1 (days 0)]),
        map (annotate (days 10)) (sort_by created_at [snap 2 (days 1); snap 1 (days 0)]),
        []).
Proof.
  apply (@negative_intervals_keep_all live [snap 2 (days 1); snap 1 (days 0)]
           [(- days 1, days 2)] (days 10) []).
  - unique_ids_tac.
  - intros q [<-|[]]. reflexivity.
Defined.
